(** * PositionalNearestNeighbor: score / count tables of the positional
      nearest-neighbour model (src/param/positional.cpp)

    The class holds, for every loop feature, a read-only score table and a
    mutable count table of the same shape.  Each [score_*] member sums a few
    score entries; the matching [count_*] member adds a weight [v] into
    count entries.

    Embedding.
    - [size_t] is [Z] with the wrap-around modulo [2^64] written out;
      [std::min<u_int32_t>] and [std::min<u_int16_t>] first convert both
      arguments to the named width.
    - The tables are accessed through unchecked accessors (no bounds test
      exists in the code), so a table is modelled by its map from indices
      to values; the thirty named members become two families indexed by
      the table name.
    - [ScoreType] is declared in a header that is not part of the sources
      at hand; it is kept abstract, with its addition and its zero.  The
      rounding of the machine numbers is outside the model, and the laws of
      exact addition are hypotheses of the statements that need them.
    - Member functions run in a small monad that threads the object and
      logs every table access, so that "reads" and "writes" of an operation
      are those of the translated code itself. *)

From Stdlib Require Import ZArith List Lia Bool.
Import ListNotations.
Local Open Scope Z_scope.

(** ** Machine integers *)

Definition size_t_ok (x : Z) : Prop := 0 <= x < 2 ^ 64.

Definition wrap64 (x : Z) : Z := x mod 2 ^ 64.
Definition size_add (a b : Z) : Z := wrap64 (a + b).
Definition size_sub (a b : Z) : Z := wrap64 (a - b).

(** Conversions to [u_int32_t] and [u_int16_t]. *)
Definition to_u32 (x : Z) : Z := x mod 2 ^ 32.
Definition to_u16 (x : Z) : Z := x mod 2 ^ 16.

(** [std::min<u_int32_t>(a, b)] and [std::min<u_int16_t>(a, b)]: both
    arguments are converted to the template type, then [b < a ? b : a]. *)
Definition min_u32 (a b : Z) : Z :=
  let a' := to_u32 a in let b' := to_u32 b in
  if b' <? a' then b' else a'.
Definition min_u16 (a b : Z) : Z :=
  let a' := to_u16 a in let b' := to_u16 b in
  if b' <? a' then b' else a'.

(** [std::minmax(a, b)] on [size_t]: [(b < a) ? (b, a) : (a, b)]. *)
Definition minmax (a b : Z) : Z * Z :=
  if b <? a then (b, a) else (a, b).

(** ** Tables *)

(** The two-index tables of the class. *)
Inductive table2 : Type :=
| helix_stacking
| mismatch_external
| mismatch_hairpin
| mismatch_internal
| mismatch_multi
| base_hairpin
| base_internal
| base_multi
| base_external
| internal_explicit.

(** The one-index tables of the class. *)
Inductive table1 : Type :=
| hairpin_length
| bulge_length
| internal_length
| internal_symmetry
| internal_asymmetry.

(** One entry of one table. *)
Inductive cell : Type :=
| Cell2 (t : table2) (r c : Z)
| Cell1 (t : table1) (n : Z).

Definition table2_eq_dec (a b : table2) : {a = b} + {a <> b}.
Proof. decide equality. Defined.

Definition table1_eq_dec (a b : table1) : {a = b} + {a <> b}.
Proof. decide equality. Defined.

Definition cell_eq_dec (a b : cell) : {a = b} + {a <> b}.
Proof.
  decide equality; first [apply Z.eq_dec | apply table2_eq_dec | apply table1_eq_dec].
Defined.

(** The three length tables whose accumulation is guarded by the raw
    length. *)
Definition is_length_table (t : table1) : bool :=
  match t with
  | hairpin_length | bulge_length | internal_length => true
  | internal_symmetry | internal_asymmetry => false
  end.

Definition in_length_table (c : cell) : bool :=
  match c with
  | Cell1 t _ => is_length_table t
  | Cell2 _ _ _ => false
  end.

Definition in_table1 (t : table1) (c : cell) : bool :=
  match c with
  | Cell1 t' _ => if table1_eq_dec t t' then true else false
  | Cell2 _ _ _ => false
  end.

Definition in_table2 (t : table2) (c : cell) : bool :=
  match c with
  | Cell2 t' _ _ => if table2_eq_dec t t' then true else false
  | Cell1 _ _ => false
  end.

(** ** Scores *)

Class ScoreOps (ScoreType : Type) : Type := {
  sadd : ScoreType -> ScoreType -> ScoreType;
  szero : ScoreType
}.

Declare Scope score_scope.
Delimit Scope score_scope with score.
Infix "+" := sadd : score_scope.

(** The integers, used to run the model on concrete tables. *)
#[export] Instance Z_ScoreOps : ScoreOps Z := {| sadd := Z.add; szero := 0 |}.

(** Access log: a read of a score entry, or a [+=] on a count entry. *)
Inductive access : Type :=
| Rd (c : cell)
| Wr (c : cell).

Fixpoint reads (t : list access) : list cell :=
  match t with
  | [] => []
  | Rd c :: t' => c :: reads t'
  | Wr _ :: t' => reads t'
  end.

Fixpoint writes (t : list access) : list cell :=
  match t with
  | [] => []
  | Rd _ :: t' => writes t'
  | Wr c :: t' => c :: writes t'
  end.

Section Model.

Context {ScoreType : Type} `{ScoreOps ScoreType}.

(** The object: the score tables and the count tables. *)
Record PositionalNearestNeighbor : Type := {
  score_ : cell -> ScoreType;
  count_ : cell -> ScoreType
}.

(** [f[c] += v] on one family of tables. *)
Definition add_at (f : cell -> ScoreType) (c : cell) (v : ScoreType)
  : cell -> ScoreType :=
  fun c' => if cell_eq_dec c c' then (f c' + v)%score else f c'.

(** *** The monad of member functions *)

Definition M (A : Type) : Type :=
  PositionalNearestNeighbor -> A * PositionalNearestNeighbor * list access.

Definition ret {A : Type} (a : A) : M A := fun p => (a, p, []).

Definition bind {A B : Type} (m : M A) (f : A -> M B) : M B :=
  fun p =>
    let '(a, p1, t1) := m p in
    let '(b, p2, t2) := f a p1 in
    (b, p2, t1 ++ t2).

Definition result {A : Type} (m : M A) (p : PositionalNearestNeighbor) : A :=
  fst (fst (m p)).
Definition final {A : Type} (m : M A) (p : PositionalNearestNeighbor)
  : PositionalNearestNeighbor := snd (fst (m p)).
Definition trace {A : Type} (m : M A) (p : PositionalNearestNeighbor)
  : list access := snd (m p).

(** [score_T_(r, c)] and [score_T_[n]]. *)
Definition score2 (t : table2) (r c : Z) : M ScoreType :=
  fun p => (score_ p (Cell2 t r c), p, [Rd (Cell2 t r c)]).
Definition score1 (t : table1) (n : Z) : M ScoreType :=
  fun p => (score_ p (Cell1 t n), p, [Rd (Cell1 t n)]).

(** [count_T_(r, c) += v] and [count_T_[n] += v]. *)
Definition count_add (c : cell) (v : ScoreType) : M unit :=
  fun p => (tt, {| score_ := score_ p; count_ := add_at (count_ p) c v |}, [Wr c]).
Definition count2 (t : table2) (r c : Z) (v : ScoreType) : M unit :=
  count_add (Cell2 t r c) v.
Definition count1 (t : table1) (n : Z) (v : ScoreType) : M unit :=
  count_add (Cell1 t n) v.

End Model.

Arguments PositionalNearestNeighbor ScoreType : clear implicits.
Arguments M ScoreType A : clear implicits.

Notation "x <- m ;; k" := (bind m (fun x => k))
  (at level 61, m at next level, right associativity).
Notation "m ;;; k" := (bind m (fun _ => k))
  (at level 61, right associativity).

(** ** The member functions *)

Section Members.

Context {ScoreType : Type} `{ScoreOps ScoreType}.
Local Open Scope score_scope.

(** [(j-1)-(i+1)+1] in [size_t]: the unpaired length between [i] and [j]. *)
Definition span (i j : Z) : Z :=
  size_add (size_sub (size_sub j 1) (size_add i 1)) 1.

(** The accumulator [e] starts at the literal [0.]; the three entries are
    added to it one after the other. *)
Definition score_hairpin (i j : Z) : M ScoreType ScoreType :=
  let l := span i j in
  let e := szero in
  x <- score1 hairpin_length (min_u32 l 30) ;;
  let e := e + x in
  y <- score2 base_hairpin (size_add i 1) (size_sub j 1) ;;
  let e := e + y in
  z <- score2 mismatch_hairpin i j ;;
  let e := e + z in
  ret e.

Definition count_hairpin (i j : Z) (v : ScoreType) : M ScoreType unit :=
  let l := span i j in
  (if l <=? 30 then count1 hairpin_length l v else ret tt) ;;;
  count2 base_hairpin (size_add i 1) (size_sub j 1) v ;;;
  count2 mismatch_hairpin i j v.

(** Every branch returns its own sum; the outer accumulator, initialised
    to the lowest score, is never returned. *)
Definition score_single_loop (i j k l : Z) : M ScoreType ScoreType :=
  let l1 := span i k in
  let l2 := span l j in
  let '(ls, ll) := minmax l1 l2 in
  if ll =? 0 then (* stack *)
    a <- score2 helix_stacking i j ;;
    b <- score2 helix_stacking l k ;;
    ret (a + b)
  else if ls =? 0 then (* bulge *)
    e <- score1 bulge_length (min_u16 ll 30) ;;
    a <- score2 base_internal (size_add i 1) (size_sub k 1) ;;
    b <- score2 base_internal (size_add l 1) (size_sub j 1) ;;
    let e := e + (a + b) in
    c <- score2 mismatch_internal i j ;;
    d <- score2 mismatch_internal l k ;;
    let e := e + (c + d) in
    ret e
  else (* internal loop *)
    e <- score1 internal_length (min_u32 (size_add ls ll) 30) ;;
    a <- score2 base_internal (size_add i 1) (size_sub k 1) ;;
    b <- score2 base_internal (size_add l 1) (size_sub j 1) ;;
    let e := e + (a + b) in
    x <- score2 internal_explicit (min_u32 ls 4) (min_u32 ll 4) ;;
    let e := e + x in
    e <- (if ls =? ll
          then s <- score1 internal_symmetry (min_u32 ll 15) ;; ret (e + s)
          else ret e) ;;
    y <- score1 internal_asymmetry (min_u32 (size_sub ll ls) 28) ;;
    let e := e + y in
    c <- score2 mismatch_internal i j ;;
    d <- score2 mismatch_internal l k ;;
    let e := e + (c + d) in
    ret e.

Definition count_single_loop (i j k l : Z) (v : ScoreType) : M ScoreType unit :=
  let l1 := span i k in
  let l2 := span l j in
  let '(ls, ll) := minmax l1 l2 in
  if ll =? 0 then (* stack *)
    count2 helix_stacking i j v ;;;
    count2 helix_stacking l k v
  else if ls =? 0 then (* bulge *)
    (if ll <=? 30 then count1 bulge_length ll v else ret tt) ;;;
    count2 base_internal (size_add i 1) (size_sub k 1) v ;;;
    count2 base_internal (size_add l 1) (size_sub j 1) v ;;;
    count2 mismatch_internal i j v ;;;
    count2 mismatch_internal l k v
  else (* internal loop *)
    (if size_add ls ll <=? 30
     then count1 internal_length (size_add ls ll) v else ret tt) ;;;
    count2 base_internal (size_add i 1) (size_sub k 1) v ;;;
    count2 base_internal (size_add l 1) (size_sub j 1) v ;;;
    count2 internal_explicit (min_u32 ls 4) (min_u32 ll 4) v ;;;
    (if ls =? ll then count1 internal_symmetry (min_u32 ll 15) v else ret tt) ;;;
    count1 internal_asymmetry (min_u32 (size_sub ll ls) 28) v ;;;
    count2 mismatch_internal i j v ;;;
    count2 mismatch_internal l k v.

Definition score_multi_loop (i j : Z) : M ScoreType ScoreType :=
  score2 mismatch_multi i j.

Definition count_multi_loop (i j : Z) (v : ScoreType) : M ScoreType unit :=
  count2 mismatch_multi i j v.

Definition score_multi_paired (i j : Z) : M ScoreType ScoreType :=
  score2 mismatch_multi j i.

Definition count_multi_paired (i j : Z) (v : ScoreType) : M ScoreType unit :=
  count2 mismatch_multi j i v.

Definition score_multi_unpaired (i j : Z) : M ScoreType ScoreType :=
  score2 base_multi i j.

Definition count_multi_unpaired (i j : Z) (v : ScoreType) : M ScoreType unit :=
  count2 base_multi i j v.

Definition score_external_paired (i j : Z) : M ScoreType ScoreType :=
  score2 mismatch_external j i.

Definition count_external_paired (i j : Z) (v : ScoreType) : M ScoreType unit :=
  count2 mismatch_external j i v.

Definition score_external_unpaired (i j : Z) : M ScoreType ScoreType :=
  score2 base_external i j.

Definition count_external_unpaired (i j : Z) (v : ScoreType) : M ScoreType unit :=
  count2 base_external i j v.

(** *** The interface as a whole *)

(** One call of the interface: the loop kind and its boundary indices. *)
Inductive loop_call : Type :=
| Hairpin (i j : Z)
| SingleLoop (i j k l : Z)
| MultiLoop (i j : Z)
| MultiPaired (i j : Z)
| MultiUnpaired (i j : Z)
| ExternalPaired (i j : Z)
| ExternalUnpaired (i j : Z).

Definition score_call (c : loop_call) : M ScoreType ScoreType :=
  match c with
  | Hairpin i j => score_hairpin i j
  | SingleLoop i j k l => score_single_loop i j k l
  | MultiLoop i j => score_multi_loop i j
  | MultiPaired i j => score_multi_paired i j
  | MultiUnpaired i j => score_multi_unpaired i j
  | ExternalPaired i j => score_external_paired i j
  | ExternalUnpaired i j => score_external_unpaired i j
  end.

Definition count_call (c : loop_call) (v : ScoreType) : M ScoreType unit :=
  match c with
  | Hairpin i j => count_hairpin i j v
  | SingleLoop i j k l => count_single_loop i j k l v
  | MultiLoop i j => count_multi_loop i j v
  | MultiPaired i j => count_multi_paired i j v
  | MultiUnpaired i j => count_multi_unpaired i j v
  | ExternalPaired i j => count_external_paired i j v
  | ExternalUnpaired i j => count_external_unpaired i j v
  end.

End Members.

(** The index convention of the callers: [i < j] closes a hairpin, and
    [i < k <= l < j] are the outer and the inner pair of a single loop;
    every index is a [size_t]. *)
Definition wf_hairpin (i j : Z) : Prop := 0 <= i /\ i < j /\ j < 2 ^ 64.

Definition wf_single_loop (i j k l : Z) : Prop :=
  0 <= i /\ i < k /\ k <= l /\ l < j /\ j < 2 ^ 64.

Definition well_formed (c : loop_call) : Prop :=
  match c with
  | Hairpin i j => wf_hairpin i j
  | SingleLoop i j k l => wf_single_loop i j k l
  | MultiLoop i j | MultiPaired i j | MultiUnpaired i j
  | ExternalPaired i j | ExternalUnpaired i j => size_t_ok i /\ size_t_ok j
  end.

(** The raw length that guards the update of the length table, when the
    call has one. *)
Definition raw_length (c : loop_call) : option Z :=
  match c with
  | Hairpin i j => Some (span i j)
  | SingleLoop i j k l =>
      let '(ls, ll) := minmax (span i k) (span l j) in
      if ll =? 0 then None
      else if ls =? 0 then Some ll
      else Some (size_add ls ll)
  | _ => None
  end.

(** ** Replaying a list of increments *)

Section ReplayDefs.

Context {ScoreType : Type} `{ScoreOps ScoreType}.
Local Open Scope score_scope.

(** [f[c] += v] for every [c] of the list, in order. *)
Fixpoint add_all (ws : list cell) (v : ScoreType) (f : cell -> ScoreType)
  : cell -> ScoreType :=
  match ws with
  | [] => f
  | c :: ws' => add_all ws' v (add_at f c v)
  end.

(** What exact addition provides. *)
Definition sadd_left_id : Prop := forall x : ScoreType, szero + x = x.
Definition sadd_right_id : Prop := forall x : ScoreType, x + szero = x.
Definition sadd_assoc : Prop := forall x y z : ScoreType, x + (y + z) = (x + y) + z.
Definition sadd_comm : Prop := forall x y : ScoreType, x + y = y + x.

End ReplayDefs.

Arguments sadd_left_id ScoreType {_}.
Arguments sadd_right_id ScoreType {_}.
Arguments sadd_assoc ScoreType {_}.
Arguments sadd_comm ScoreType {_}.


(** ** The sums as the specification writes them *)

Section SpecFormulas.

Context {ScoreType : Type} `{ScoreOps ScoreType}.
Local Open Scope score_scope.

(** The hairpin contribution in the words of the specification:
    [hairpin_length[min(l,30)] + base_hairpin(i+1, j-1) + mismatch_hairpin(i, j)]
    with [l = (j-1) - (i+1) + 1], over unbounded integers. *)
Definition spec_score_hairpin (p : PositionalNearestNeighbor ScoreType)
  (i j : Z) : ScoreType :=
  let l := ((j - 1) - (i + 1) + 1)%Z in
  score_ p (Cell1 hairpin_length (Z.min l 30))
  + score_ p (Cell2 base_hairpin (i + 1)%Z (j - 1)%Z)
  + score_ p (Cell2 mismatch_hairpin i j).

(** The internal-loop contribution, with the clamp of the indices left
    open: the eight terms in the order of the specification, the symmetry
    term only when [ls = ll]. *)
Definition internal_sum (clamp : Z -> Z -> Z)
  (p : PositionalNearestNeighbor ScoreType) (i j k l : Z) : ScoreType :=
  let l1 := ((k - 1) - (i + 1) + 1)%Z in
  let l2 := ((j - 1) - (l + 1) + 1)%Z in
  let ls := Z.min l1 l2 in
  let ll := Z.max l1 l2 in
  let e := score_ p (Cell1 internal_length (clamp (ls + ll)%Z 30%Z))
           + score_ p (Cell2 base_internal (i + 1)%Z (k - 1)%Z)
           + score_ p (Cell2 base_internal (l + 1)%Z (j - 1)%Z)
           + score_ p (Cell2 internal_explicit (clamp ls 4%Z) (clamp ll 4%Z)) in
  let e := if (ls =? ll)%Z
           then e + score_ p (Cell1 internal_symmetry (clamp ll 15%Z))
           else e in
  e + score_ p (Cell1 internal_asymmetry (clamp (ll - ls)%Z 28%Z))
  + score_ p (Cell2 mismatch_internal i j)
  + score_ p (Cell2 mismatch_internal l k).

(** In the words of the specification the clamp is [min]. *)
Definition spec_score_internal := internal_sum Z.min.

(** In the code the index passes through [u_int32_t] first. *)
Definition clamp_u32 (x b : Z) : Z := Z.min (x mod 2 ^ 32) b.

End SpecFormulas.

(** ** Concrete tables over the integers *)

(** Every score entry holds a number computed from its index, so that
    different entries of a table hold different values; counts start at 0. *)
Definition index_score (c : cell) : Z :=
  match c with
  | Cell2 _ r c => 1000 * r + c
  | Cell1 _ n => 7 * n + 3
  end.

Definition index_tables : PositionalNearestNeighbor Z :=
  {| score_ := index_score; count_ := fun _ => 0 |}.

(** ** Loop kinds of a single loop *)

Inductive loop_kind : Type := Stack | Bulge | Internal.

(** The classifier in the words of the specification: a pure function of
    the two unpaired lengths; [ll == 0] is tested before [ls == 0]. *)
Definition spec_classify (l1 l2 : Z) : loop_kind :=
  let ls := Z.min l1 l2 in
  let ll := Z.max l1 l2 in
  if ll =? 0 then Stack else if ls =? 0 then Bulge else Internal.

(** The tables each branch of [score_single_loop] / [count_single_loop]
    works on. *)
Definition stack_cell (c : cell) : bool := in_table2 helix_stacking c.

Definition bulge_cell (c : cell) : bool :=
  in_table1 bulge_length c || in_table2 base_internal c
  || in_table2 mismatch_internal c.

Definition internal_cell (c : cell) : bool :=
  in_table1 internal_length c || in_table2 base_internal c
  || in_table2 internal_explicit c || in_table1 internal_symmetry c
  || in_table1 internal_asymmetry c || in_table2 mismatch_internal c.

(** The branch that an access log shows: all accesses on the stacking
    table; else all on the tables of a bulge; else all on the tables of an
    internal loop, [internal_explicit] among them. *)
Definition kind_of_cells (cs : list cell) : option loop_kind :=
  match cs with
  | [] => None
  | _ =>
      if forallb stack_cell cs then Some Stack
      else if forallb bulge_cell cs then Some Bulge
      else if forallb internal_cell cs && existsb (in_table2 internal_explicit) cs
           then Some Internal
           else None
  end.

(** Whether the guard on the raw length skips the update of the length
    table: the raw length is above 30. *)
Definition skips_length (c : loop_call) : bool :=
  match raw_length c with
  | Some n => 30 <? n
  | None => false
  end.

(** The accesses of a log that fall on one length table. *)
Definition on_table1 (t : table1) (cs : list cell) : list cell :=
  filter (in_table1 t) cs.

(** ** Shapes and families of the tables *)

(** The index ranges that the clamps and guards of the code aim at: 0..30
    on the three length tables, 0..15 on [internal_symmetry], 0..28 on
    [internal_asymmetry], 0..4 in both indices of [internal_explicit].  The
    tables indexed by sequence positions have no range of their own. *)
Definition in_bounds (c : cell) : bool :=
  match c with
  | Cell1 hairpin_length n | Cell1 bulge_length n | Cell1 internal_length n =>
      (0 <=? n) && (n <=? 30)
  | Cell1 internal_symmetry n => (0 <=? n) && (n <=? 15)
  | Cell1 internal_asymmetry n => (0 <=? n) && (n <=? 28)
  | Cell2 internal_explicit r c =>
      (0 <=? r) && (r <=? 4) && (0 <=? c) && (c <=? 4)
  | Cell2 _ _ _ => true
  end.

(** The entries indexed by lengths rather than by sequence positions. *)
Definition length_feature (c : cell) : bool :=
  match c with
  | Cell1 _ _ => true
  | Cell2 internal_explicit _ _ => true
  | Cell2 _ _ _ => false
  end.

(** The four groups of member functions and the tables each group names. *)
Inductive loop_family : Type :=
| HairpinFamily | SingleLoopFamily | MultiFamily | ExternalFamily.

Definition family_of_call (c : loop_call) : loop_family :=
  match c with
  | Hairpin _ _ => HairpinFamily
  | SingleLoop _ _ _ _ => SingleLoopFamily
  | MultiLoop _ _ | MultiPaired _ _ | MultiUnpaired _ _ => MultiFamily
  | ExternalPaired _ _ | ExternalUnpaired _ _ => ExternalFamily
  end.

Definition family_of_cell (c : cell) : loop_family :=
  match c with
  | Cell1 hairpin_length _ => HairpinFamily
  | Cell2 base_hairpin _ _ | Cell2 mismatch_hairpin _ _ => HairpinFamily
  | Cell2 mismatch_multi _ _ | Cell2 base_multi _ _ => MultiFamily
  | Cell2 mismatch_external _ _ | Cell2 base_external _ _ => ExternalFamily
  | Cell1 _ _ => SingleLoopFamily
  | Cell2 _ _ _ => SingleLoopFamily
  end.

(** The tables that the members of each group name in the source. *)
Definition family_tables (f : loop_family) (c : cell) : bool :=
  match f with
  | HairpinFamily =>
      in_table1 hairpin_length c || in_table2 base_hairpin c
      || in_table2 mismatch_hairpin c
  | SingleLoopFamily =>
      in_table2 helix_stacking c || in_table1 bulge_length c
      || in_table1 internal_length c || in_table2 internal_explicit c
      || in_table1 internal_symmetry c || in_table1 internal_asymmetry c
      || in_table2 base_internal c || in_table2 mismatch_internal c
  | MultiFamily => in_table2 mismatch_multi c || in_table2 base_multi c
  | ExternalFamily => in_table2 mismatch_external c || in_table2 base_external c
  end.

Section SumDefs.

Context {ScoreType : Type} `{ScoreOps ScoreType}.
Local Open Scope score_scope.

(** The entries of [f] at the cells of a list, added up from [szero] in
    the order of the list. *)
Definition sum_cells (f : cell -> ScoreType) (cs : list cell) : ScoreType :=
  fold_left (fun a c => a + f c) cs szero.

End SumDefs.

(** ** Machine numbers as scores *)

From Stdlib Require PrimFloat.

(** The binary64 numbers with their rounded addition: the scores of the
    code when [ScoreType] is the machine type [double].  The rounding makes
    the addition neither associative nor independent of the order in which
    weights are accumulated. *)
Module FloatScores.

Import PrimFloat.

Definition float_ScoreOps : ScoreOps float :=
  {| sadd := PrimFloat.add; szero := 0%float |}.

(** Count tables holding 1.0 in every entry. *)
Definition float_tables : PositionalNearestNeighbor float :=
  {| score_ := fun _ => 0%float; count_ := fun _ => 1%float |}.

(** [2^53], from where on the spacing of the binary64 numbers is 2. *)
Definition two53 : float := 9007199254740992%float.

Definition one : float := 1%float.

End FloatScores.
(** ** Arithmetic of the index computations *)

Lemma wrap64_small (x : Z) : 0 <= x < 2 ^ 64 -> wrap64 x = x.
Proof. intros Hx. unfold wrap64. apply Z.mod_small. exact Hx. Qed.

Lemma to_u32_small (x : Z) : 0 <= x < 2 ^ 32 -> to_u32 x = x.
Proof. intros Hx. unfold to_u32. apply Z.mod_small. exact Hx. Qed.

Lemma to_u16_small (x : Z) : 0 <= x < 2 ^ 16 -> to_u16 x = x.
Proof. intros Hx. unfold to_u16. apply Z.mod_small. exact Hx. Qed.

Lemma min_u32_spec (a b : Z) : min_u32 a b = Z.min (to_u32 a) (to_u32 b).
Proof. unfold min_u32. cbv zeta. destruct (Z.ltb_spec (to_u32 b) (to_u32 a)); lia. Qed.

Lemma min_u16_spec (a b : Z) : min_u16 a b = Z.min (to_u16 a) (to_u16 b).
Proof. unfold min_u16. cbv zeta. destruct (Z.ltb_spec (to_u16 b) (to_u16 a)); lia. Qed.

(** With a bound [b] that fits, the clamp is [min (a mod 2^32) b]. *)
Lemma min_u32_clamp (a b : Z) :
  0 <= b < 2 ^ 32 -> min_u32 a b = Z.min (a mod 2 ^ 32) b.
Proof. intros Hb. rewrite min_u32_spec, (to_u32_small b) by exact Hb. reflexivity. Qed.

Lemma min_u16_clamp (a b : Z) :
  0 <= b < 2 ^ 16 -> min_u16 a b = Z.min (a mod 2 ^ 16) b.
Proof. intros Hb. rewrite min_u16_spec, (to_u16_small b) by exact Hb. reflexivity. Qed.

(** Below the width of the conversion the clamp is the plain minimum. *)
Lemma min_u32_small (a b : Z) :
  0 <= a < 2 ^ 32 -> 0 <= b < 2 ^ 32 -> min_u32 a b = Z.min a b.
Proof.
  intros Ha Hb. rewrite min_u32_clamp by exact Hb.
  rewrite Z.mod_small by exact Ha. reflexivity.
Qed.

Lemma min_u16_small (a b : Z) :
  0 <= a < 2 ^ 16 -> 0 <= b < 2 ^ 16 -> min_u16 a b = Z.min a b.
Proof.
  intros Ha Hb. rewrite min_u16_clamp by exact Hb.
  rewrite Z.mod_small by exact Ha. reflexivity.
Qed.

Lemma minmax_spec (a b : Z) : minmax a b = (Z.min a b, Z.max a b).
Proof. unfold minmax. destruct (Z.ltb_spec b a); f_equal; lia. Qed.

Lemma size_add_small (a b : Z) : 0 <= a + b < 2 ^ 64 -> size_add a b = a + b.
Proof. apply wrap64_small. Qed.

Lemma size_sub_small (a b : Z) : 0 <= a - b < 2 ^ 64 -> size_sub a b = a - b.
Proof. apply wrap64_small. Qed.

(** [span] wraps twice when [j = i + 1] and still yields [0]. *)
Lemma span_wf (i j : Z) : 0 <= i -> i < j -> j < 2 ^ 64 -> span i j = j - i - 1.
Proof.
  intros Hi Hij Hj. unfold span.
  rewrite (size_sub_small j 1) by lia.
  rewrite (size_add_small i 1) by lia.
  unfold size_add, size_sub, wrap64.
  rewrite Zplus_mod_idemp_l.
  replace (j - 1 - (i + 1) + 1) with (j - i - 1) by lia.
  apply Z.mod_small. lia.
Qed.

(** ** Replaying a list of increments: lemmas *)

Section Replay.

Context {ScoreType : Type} `{ScoreOps ScoreType}.
Local Open Scope score_scope.

Lemma iter_add_shift (n : nat) (v x : ScoreType) :
  Nat.iter n (fun y => y + v) (x + v) = Nat.iter n (fun y => y + v) x + v.
Proof. induction n as [|n IH]; simpl; [reflexivity | rewrite IH; reflexivity]. Qed.

(** An entry receives one increment per occurrence in the list. *)
Lemma add_all_count_occ (ws : list cell) (v : ScoreType) (f : cell -> ScoreType)
  (c : cell) :
  add_all ws v f c = Nat.iter (count_occ cell_eq_dec ws c) (fun y => y + v) (f c).
Proof.
  revert f. induction ws as [|w ws IH]; intros f; simpl.
  - reflexivity.
  - rewrite IH. unfold add_at at 1.
    destruct (cell_eq_dec w c) as [->|Hne]; simpl.
    + apply iter_add_shift.
    + reflexivity.
Qed.

Lemma add_all_notin (ws : list cell) (v : ScoreType) (f : cell -> ScoreType)
  (c : cell) : ~ In c ws -> add_all ws v f c = f c.
Proof.
  intros Hn. rewrite add_all_count_occ.
  apply (count_occ_not_In cell_eq_dec) in Hn. rewrite Hn. reflexivity.
Qed.

Lemma add_all_once (ws : list cell) (v : ScoreType) (f : cell -> ScoreType)
  (c : cell) : NoDup ws -> In c ws -> add_all ws v f c = f c + v.
Proof.
  intros Hnd Hin. rewrite add_all_count_occ.
  assert (Hle : (count_occ cell_eq_dec ws c <= 1)%nat)
    by (apply (proj1 (NoDup_count_occ cell_eq_dec ws) Hnd)).
  assert (Hge : (count_occ cell_eq_dec ws c > 0)%nat)
    by (apply (count_occ_In cell_eq_dec); exact Hin).
  assert (Heq : count_occ cell_eq_dec ws c = 1%nat) by lia.
  rewrite Heq. reflexivity.
Qed.

Lemma iter_add_zero (n : nat) (x : ScoreType) :
  sadd_right_id ScoreType -> Nat.iter n (fun y => y + szero) x = x.
Proof.
  intros H0. induction n as [|n IH]; simpl; [reflexivity|].
  rewrite IH. apply H0.
Qed.

Lemma iter_add_swap (n : nat) (v w x : ScoreType) :
  sadd_assoc ScoreType -> sadd_comm ScoreType ->
  Nat.iter n (fun y => y + v) (x + w) = Nat.iter n (fun y => y + v) x + w.
Proof.
  intros Ha Hc. induction n as [|n IH]; simpl; [reflexivity|].
  rewrite IH.
  rewrite <- !Ha. rewrite (Hc w v). reflexivity.
Qed.

Lemma iter_add_two (n : nat) (v1 v2 x : ScoreType) :
  sadd_assoc ScoreType -> sadd_comm ScoreType ->
  Nat.iter n (fun y => y + v2) (Nat.iter n (fun y => y + v1) x)
  = Nat.iter n (fun y => y + (v1 + v2)) x.
Proof.
  intros Ha Hc. induction n as [|n IH]; simpl; [reflexivity|].
  rewrite iter_add_swap by assumption.
  rewrite IH. symmetry. apply Ha.
Qed.

(** Two passes over the same list add up, whatever the multiplicities. *)
Lemma add_all_two (ws : list cell) (v1 v2 : ScoreType) (f : cell -> ScoreType)
  (c : cell) :
  sadd_assoc ScoreType -> sadd_comm ScoreType ->
  add_all ws v2 (add_all ws v1 f) c = add_all ws (v1 + v2) f c.
Proof.
  intros Ha Hc. rewrite !add_all_count_occ. apply iter_add_two; assumption.
Qed.

Lemma add_all_zero (ws : list cell) (f : cell -> ScoreType) (c : cell) :
  sadd_right_id ScoreType -> add_all ws szero f c = f c.
Proof. intros H0. rewrite add_all_count_occ. apply iter_add_zero. exact H0. Qed.

End Replay.

(** ** Running the member functions *)

Ltac run_members :=
  unfold score_call, count_call,
    score_hairpin, count_hairpin, score_single_loop, count_single_loop,
    score_multi_loop, count_multi_loop, score_multi_paired, count_multi_paired,
    score_multi_unpaired, count_multi_unpaired,
    score_external_paired, count_external_paired,
    score_external_unpaired, count_external_unpaired.

Ltac run_monad :=
  unfold result, final, trace, bind, ret, score1, score2, count1, count2, count_add;
  cbn [fst snd app reads writes score_ count_].

Ltac split_branches :=
  repeat match goal with
         | |- context [let '(_, _) := minmax ?a ?b in _] =>
             let E := fresh "Emm" in destruct (minmax a b) eqn:E
         | |- context [if ?b then _ else _] =>
             let E := fresh "Eb" in destruct b eqn:E
         end.

Section Facts.

Context {ScoreType : Type} `{ScoreOps ScoreType}.
Local Open Scope score_scope.

Implicit Types (p : PositionalNearestNeighbor ScoreType) (v : ScoreType)
  (c : loop_call).

(** A [count_*] call changes the count tables by replaying its own log. *)
Lemma count_call_replay c v p :
  count_ (final (count_call c v) p)
  = add_all (writes (trace (count_call c v) p)) v (count_ p).
Proof.
  destruct c; run_members; split_branches; run_monad; reflexivity.
Qed.

Lemma count_call_score c v p :
  score_ (final (count_call c v) p) = score_ p.
Proof.
  destruct c; run_members; split_branches; run_monad; reflexivity.
Qed.

Lemma count_call_reads c v p : reads (trace (count_call c v) p) = [].
Proof.
  destruct c; run_members; split_branches; run_monad; reflexivity.
Qed.

(** The log of a [count_*] call depends on the indices only. *)
Lemma count_call_trace c v v' p p' :
  trace (count_call c v) p = trace (count_call c v') p'.
Proof.
  destruct c; run_members; split_branches; run_monad; reflexivity.
Qed.

(** A [score_*] call leaves the object as it is and logs reads only. *)
Lemma score_call_final c p : final (score_call c) p = p.
Proof.
  destruct c; run_members; split_branches; run_monad; reflexivity.
Qed.

Lemma score_call_writes c p : writes (trace (score_call c) p) = [].
Proof.
  destruct c; run_members; split_branches; run_monad; reflexivity.
Qed.

End Facts.

(** ** Hairpin loops *)

Section HairpinFacts.

Context {ScoreType : Type} `{ScoreOps ScoreType}.
Local Open Scope score_scope.

Implicit Types (p : PositionalNearestNeighbor ScoreType) (v : ScoreType).

Lemma hairpin_indices (i j : Z) :
  wf_hairpin i j ->
  span i j = (j - i - 1)%Z /\ size_add i 1 = (i + 1)%Z /\ size_sub j 1 = (j - 1)%Z.
Proof.
  intros (Hi & Hij & Hj). split; [apply span_wf; assumption|].
  split; [apply size_add_small | apply size_sub_small]; lia.
Qed.

(** C3 (as amended): for [i < j], [score_hairpin(i, j)] adds to [0.], in
    this order, [hairpin_length[min(l mod 2^32, 30)]], [base_hairpin(i+1, j-1)]
    and [mismatch_hairpin(i, j)], with [l = (j-1)-(i+1)+1]; with exact
    addition this is the sum of the three entries, and it is the sum of the
    specification, with bucket [min(l, 30)], whenever [l < 2^32].  The call
    reads exactly these three entries and modifies nothing. *)
Theorem score_hairpin_sum p (i j : Z) :
  wf_hairpin i j ->
  let l := ((j - 1) - (i + 1) + 1)%Z in
  result (score_hairpin i j) p
  = szero
    + score_ p (Cell1 hairpin_length (Z.min (l mod 2 ^ 32) 30))
    + score_ p (Cell2 base_hairpin (i + 1)%Z (j - 1)%Z)
    + score_ p (Cell2 mismatch_hairpin i j)
  /\ (sadd_left_id ScoreType ->
      result (score_hairpin i j) p
      = score_ p (Cell1 hairpin_length (Z.min (l mod 2 ^ 32) 30))
        + score_ p (Cell2 base_hairpin (i + 1)%Z (j - 1)%Z)
        + score_ p (Cell2 mismatch_hairpin i j))
  /\ (sadd_left_id ScoreType -> (l < 2 ^ 32)%Z ->
      result (score_hairpin i j) p = spec_score_hairpin p i j)
  /\ trace (score_hairpin i j) p
     = [Rd (Cell1 hairpin_length (Z.min (l mod 2 ^ 32) 30));
        Rd (Cell2 base_hairpin (i + 1)%Z (j - 1)%Z);
        Rd (Cell2 mismatch_hairpin i j)]
  /\ final (score_hairpin i j) p = p.
Proof.
  intros Hwf l.
  destruct (hairpin_indices i j Hwf) as (Hl & Hi1 & Hj1).
  assert (Hll : l = (j - i - 1)%Z) by (unfold l; lia).
  assert (Hval : result (score_hairpin i j) p
            = szero
              + score_ p (Cell1 hairpin_length (Z.min (l mod 2 ^ 32) 30))
              + score_ p (Cell2 base_hairpin (i + 1)%Z (j - 1)%Z)
              + score_ p (Cell2 mismatch_hairpin i j)).
  { unfold score_hairpin. run_monad.
    rewrite Hl, Hi1, Hj1, <- Hll.
    rewrite min_u32_clamp by lia. reflexivity. }
  split; [exact Hval|].
  split.
  { intros H0. rewrite Hval, H0. reflexivity. }
  split.
  { intros H0 Hsmall. rewrite Hval, H0. unfold spec_score_hairpin. fold l.
    destruct Hwf as (Hi & Hij & Hj).
    rewrite (Z.mod_small l) by lia. reflexivity. }
  split.
  { unfold score_hairpin. run_monad.
    rewrite Hl, Hi1, Hj1, <- Hll.
    rewrite min_u32_clamp by lia. reflexivity. }
  unfold score_hairpin. run_monad. reflexivity.
Qed.

End HairpinFacts.

Lemma score_hairpin_sum_witness :
  sadd_left_id Z /\ wf_hairpin 2 10 /\
  result (score_hairpin 2 10) index_tables
  = (index_score (Cell1 hairpin_length 7)
     + index_score (Cell2 base_hairpin 3 9)
     + index_score (Cell2 mismatch_hairpin 2 10))%Z.
Proof.
  assert (H0 : sadd_left_id Z) by (intros x; reflexivity).
  assert (Hwf : wf_hairpin 2 10) by (unfold wf_hairpin; lia).
  split; [exact H0|]. split; [exact Hwf|].
  pose proof (score_hairpin_sum index_tables 2 10 Hwf) as (_ & Hsum & _).
  exact (Hsum H0).
Defined.

(** C3 as stated fails: with [j - i - 1 = 2^32] the conversion to
    [u_int32_t] yields [0], and bucket [0] is read instead of bucket [30]. *)
Lemma score_hairpin_sum_counterexample :
  ~ (forall (p : PositionalNearestNeighbor Z) (i j : Z),
        wf_hairpin i j ->
        result (score_hairpin i j) p = spec_score_hairpin p i j).
Proof.
  intros Hall.
  assert (Hwf : wf_hairpin 0 4294967297) by (unfold wf_hairpin; lia).
  specialize (Hall index_tables 0 4294967297 Hwf).
  vm_compute in Hall. discriminate Hall.
Qed.

Ltac split_all := repeat match goal with |- _ /\ _ => split end.

(** Decide the tests of [add_at] on explicit cells. *)
Ltac decide_cells :=
  unfold add_at;
  repeat match goal with
         | |- context [cell_eq_dec ?a ?b] =>
             let E := fresh "Ec" in
             destruct (cell_eq_dec a b) as [E|E];
             [ try discriminate E;
               try (exfalso; injection E; intros; lia)
             | try (exfalso; apply E; reflexivity);
               try (exfalso; apply E; f_equal; lia) ]
         end.

Section HairpinClamp.

Context {ScoreType : Type} `{ScoreOps ScoreType}.
Local Open Scope score_scope.

Implicit Types (p : PositionalNearestNeighbor ScoreType) (v : ScoreType).

(** C9 (as amended): [score_hairpin] at unpaired length 45 and at unpaired
    length 30 read the same length bucket, [hairpin_length[30]], and the two
    scores are equal whenever their [base_hairpin] and [mismatch_hairpin]
    terms are equal.  [count_hairpin] at length 45 leaves every bucket of the
    [hairpin_length] count table as it was; at length 30 it adds exactly [v]
    to bucket 30 and leaves the other buckets as they were. *)
Theorem hairpin_clamp_45_30 p v (i j i' j' : Z) :
  wf_hairpin i j -> (j - i - 1 = 45)%Z ->
  wf_hairpin i' j' -> (j' - i' - 1 = 30)%Z ->
  reads (trace (score_hairpin i j) p)
  = [Cell1 hairpin_length 30; Cell2 base_hairpin (i + 1)%Z (j - 1)%Z;
     Cell2 mismatch_hairpin i j]
  /\ reads (trace (score_hairpin i' j') p)
     = [Cell1 hairpin_length 30; Cell2 base_hairpin (i' + 1)%Z (j' - 1)%Z;
        Cell2 mismatch_hairpin i' j']
  /\ (score_ p (Cell2 base_hairpin (i + 1)%Z (j - 1)%Z)
      = score_ p (Cell2 base_hairpin (i' + 1)%Z (j' - 1)%Z) ->
      score_ p (Cell2 mismatch_hairpin i j)
      = score_ p (Cell2 mismatch_hairpin i' j') ->
      result (score_hairpin i j) p = result (score_hairpin i' j') p)
  /\ (forall n, count_ (final (count_hairpin i j v) p) (Cell1 hairpin_length n)
                = count_ p (Cell1 hairpin_length n))
  /\ (forall c, In c (writes (trace (count_hairpin i j v) p)) ->
                in_table1 hairpin_length c = false)
  /\ count_ (final (count_hairpin i' j' v) p) (Cell1 hairpin_length 30)
     = count_ p (Cell1 hairpin_length 30) + v
  /\ (forall n, n <> 30%Z ->
                count_ (final (count_hairpin i' j' v) p) (Cell1 hairpin_length n)
                = count_ p (Cell1 hairpin_length n)).
Proof.
  intros Hwf H45 Hwf' H30.
  destruct (hairpin_indices i j Hwf) as (Hl & Hi1 & Hj1).
  destruct (hairpin_indices i' j' Hwf') as (Hl' & Hi1' & Hj1').
  rewrite H45 in Hl. rewrite H30 in Hl'.
  unfold score_hairpin, count_hairpin.
  rewrite Hl, Hi1, Hj1, Hl', Hi1', Hj1'.
  change (min_u32 45 30) with 30%Z. change (min_u32 30 30) with 30%Z.
  change (45 <=? 30)%Z with false. change (30 <=? 30)%Z with true.
  run_monad.
  split_all.
  - reflexivity.
  - reflexivity.
  - intros Hb Hm. rewrite Hb, Hm. reflexivity.
  - intros n. decide_cells. reflexivity.
  - intros c [<-|[<-|[]]]; reflexivity.
  - decide_cells. reflexivity.
  - intros n Hn. decide_cells. reflexivity.
Qed.

End HairpinClamp.

Lemma hairpin_clamp_45_30_witness :
  wf_hairpin 0 46 /\ wf_hairpin 0 31 /\
  count_ (final (count_hairpin 0 46 5) index_tables) (Cell1 hairpin_length 30) = 0%Z /\
  count_ (final (count_hairpin 0 31 5) index_tables) (Cell1 hairpin_length 30) = 5%Z.
Proof.
  assert (Hwf : wf_hairpin 0 46) by (unfold wf_hairpin; lia).
  assert (Hwf' : wf_hairpin 0 31) by (unfold wf_hairpin; lia).
  split; [exact Hwf|]. split; [exact Hwf'|].
  pose proof (hairpin_clamp_45_30 index_tables 5 0 46 0 31
                Hwf eq_refl Hwf' eq_refl) as (_ & _ & _ & H45 & _ & H30 & _).
  split; [apply H45 | apply H30].
Defined.

(** C9 as stated fails: the two calls have different boundary indices, and
    their [base_hairpin] and [mismatch_hairpin] terms differ. *)
Lemma hairpin_clamp_45_30_counterexample :
  ~ (forall (p : PositionalNearestNeighbor Z) (i j i' j' : Z),
        wf_hairpin i j -> (j - i - 1 = 45)%Z ->
        wf_hairpin i' j' -> (j' - i' - 1 = 30)%Z ->
        result (score_hairpin i j) p = result (score_hairpin i' j') p).
Proof.
  intros Hall.
  assert (Hwf : wf_hairpin 0 46) by (unfold wf_hairpin; lia).
  assert (Hwf' : wf_hairpin 0 31) by (unfold wf_hairpin; lia).
  specialize (Hall index_tables 0 46 0 31 Hwf eq_refl Hwf' eq_refl).
  vm_compute in Hall. discriminate Hall.
Qed.

(** ** Single loops: which branch runs *)

Section SingleLoopFacts.

Context {ScoreType : Type} `{ScoreOps ScoreType}.
Local Open Scope score_scope.

Implicit Types (p : PositionalNearestNeighbor ScoreType) (v : ScoreType).

Lemma single_loop_indices (i j k l : Z) :
  wf_single_loop i j k l ->
  minmax (span i k) (span l j)
  = (Z.min (k - i - 1) (j - l - 1), Z.max (k - i - 1) (j - l - 1))%Z
  /\ size_add i 1 = (i + 1)%Z /\ size_sub k 1 = (k - 1)%Z
  /\ size_add l 1 = (l + 1)%Z /\ size_sub j 1 = (j - 1)%Z
  /\ size_add (Z.min (k - i - 1) (j - l - 1)) (Z.max (k - i - 1) (j - l - 1))
     = (Z.min (k - i - 1) (j - l - 1) + Z.max (k - i - 1) (j - l - 1))%Z
  /\ size_sub (Z.max (k - i - 1) (j - l - 1)) (Z.min (k - i - 1) (j - l - 1))
     = (Z.max (k - i - 1) (j - l - 1) - Z.min (k - i - 1) (j - l - 1))%Z.
Proof.
  intros (Hi & Hik & Hkl & Hlj & Hj).
  split.
  { rewrite minmax_spec, !span_wf by lia. reflexivity. }
  split_all; first [apply size_add_small | apply size_sub_small]; lia.
Qed.

(** The stack branch. *)
Lemma score_single_loop_stack p (i j k l : Z) :
  wf_single_loop i j k l ->
  Z.max (k - i - 1) (j - l - 1) = 0%Z ->
  score_single_loop i j k l p
  = (score_ p (Cell2 helix_stacking i j) + score_ p (Cell2 helix_stacking l k),
     p,
     [Rd (Cell2 helix_stacking i j); Rd (Cell2 helix_stacking l k)]).
Proof.
  intros Hwf Hll.
  destruct (single_loop_indices i j k l Hwf) as (Hmm & _).
  unfold score_single_loop. rewrite Hmm, Hll. reflexivity.
Qed.

Lemma count_single_loop_stack p v (i j k l : Z) :
  wf_single_loop i j k l ->
  Z.max (k - i - 1) (j - l - 1) = 0%Z ->
  trace (count_single_loop i j k l v) p
  = [Wr (Cell2 helix_stacking i j); Wr (Cell2 helix_stacking l k)].
Proof.
  intros Hwf Hll.
  destruct (single_loop_indices i j k l Hwf) as (Hmm & _).
  unfold count_single_loop. rewrite Hmm, Hll. reflexivity.
Qed.

(** The bulge branch. *)
Lemma score_single_loop_bulge p (i j k l : Z) :
  wf_single_loop i j k l ->
  let ls := Z.min (k - i - 1) (j - l - 1) in
  let ll := Z.max (k - i - 1) (j - l - 1) in
  (0 < ll)%Z -> ls = 0%Z ->
  score_single_loop i j k l p
  = (score_ p (Cell1 bulge_length (min_u16 ll 30))
     + (score_ p (Cell2 base_internal (i + 1)%Z (k - 1)%Z)
        + score_ p (Cell2 base_internal (l + 1)%Z (j - 1)%Z))
     + (score_ p (Cell2 mismatch_internal i j)
        + score_ p (Cell2 mismatch_internal l k)),
     p,
     [Rd (Cell1 bulge_length (min_u16 ll 30));
      Rd (Cell2 base_internal (i + 1)%Z (k - 1)%Z);
      Rd (Cell2 base_internal (l + 1)%Z (j - 1)%Z);
      Rd (Cell2 mismatch_internal i j);
      Rd (Cell2 mismatch_internal l k)]).
Proof.
  intros Hwf ls ll Hll Hls.
  destruct (single_loop_indices i j k l Hwf) as (Hmm & Hi1 & Hk1 & Hl1 & Hj1 & _).
  unfold score_single_loop. rewrite Hmm. fold ls ll.
  destruct (Z.eqb_spec ll 0) as [E|_]; [lia|].
  destruct (Z.eqb_spec ls 0) as [_|E]; [|lia].
  rewrite Hi1, Hk1, Hl1, Hj1. reflexivity.
Qed.

Lemma count_single_loop_bulge p v (i j k l : Z) :
  wf_single_loop i j k l ->
  let ls := Z.min (k - i - 1) (j - l - 1) in
  let ll := Z.max (k - i - 1) (j - l - 1) in
  (0 < ll)%Z -> ls = 0%Z ->
  trace (count_single_loop i j k l v) p
  = (if (ll <=? 30)%Z then [Wr (Cell1 bulge_length ll)] else [])
    ++ [Wr (Cell2 base_internal (i + 1)%Z (k - 1)%Z);
        Wr (Cell2 base_internal (l + 1)%Z (j - 1)%Z);
        Wr (Cell2 mismatch_internal i j);
        Wr (Cell2 mismatch_internal l k)].
Proof.
  intros Hwf ls ll Hll Hls.
  destruct (single_loop_indices i j k l Hwf) as (Hmm & Hi1 & Hk1 & Hl1 & Hj1 & _).
  unfold count_single_loop. rewrite Hmm. fold ls ll.
  destruct (Z.eqb_spec ll 0) as [E|_]; [lia|].
  destruct (Z.eqb_spec ls 0) as [_|E]; [|lia].
  rewrite Hi1, Hk1, Hl1, Hj1.
  destruct (ll <=? 30)%Z; reflexivity.
Qed.

(** The internal-loop branch. *)
Lemma score_single_loop_internal p (i j k l : Z) :
  wf_single_loop i j k l ->
  let ls := Z.min (k - i - 1) (j - l - 1) in
  let ll := Z.max (k - i - 1) (j - l - 1) in
  (0 < ls)%Z ->
  result (score_single_loop i j k l) p
  = (let e := score_ p (Cell1 internal_length (min_u32 (ls + ll)%Z 30))
              + (score_ p (Cell2 base_internal (i + 1)%Z (k - 1)%Z)
                 + score_ p (Cell2 base_internal (l + 1)%Z (j - 1)%Z))
              + score_ p (Cell2 internal_explicit (min_u32 ls 4) (min_u32 ll 4)) in
     let e := if (ls =? ll)%Z
              then e + score_ p (Cell1 internal_symmetry (min_u32 ll 15))
              else e in
     e + score_ p (Cell1 internal_asymmetry (min_u32 (ll - ls)%Z 28))
     + (score_ p (Cell2 mismatch_internal i j)
        + score_ p (Cell2 mismatch_internal l k)))
  /\ trace (score_single_loop i j k l) p
     = [Rd (Cell1 internal_length (min_u32 (ls + ll)%Z 30));
        Rd (Cell2 base_internal (i + 1)%Z (k - 1)%Z);
        Rd (Cell2 base_internal (l + 1)%Z (j - 1)%Z);
        Rd (Cell2 internal_explicit (min_u32 ls 4) (min_u32 ll 4))]
       ++ (if (ls =? ll)%Z
           then [Rd (Cell1 internal_symmetry (min_u32 ll 15))] else [])
       ++ [Rd (Cell1 internal_asymmetry (min_u32 (ll - ls)%Z 28));
           Rd (Cell2 mismatch_internal i j);
           Rd (Cell2 mismatch_internal l k)].
Proof.
  intros Hwf ls ll Hls.
  destruct (single_loop_indices i j k l Hwf)
    as (Hmm & Hi1 & Hk1 & Hl1 & Hj1 & Hadd & Hsub).
  fold ls ll in Hadd, Hsub.
  unfold score_single_loop. rewrite Hmm. fold ls ll.
  destruct (Z.eqb_spec ll 0) as [E|_]; [lia|].
  destruct (Z.eqb_spec ls 0) as [E|_]; [lia|].
  rewrite Hi1, Hk1, Hl1, Hj1, Hadd, Hsub.
  destruct (ls =? ll)%Z; split; reflexivity.
Qed.

Lemma count_single_loop_internal p v (i j k l : Z) :
  wf_single_loop i j k l ->
  let ls := Z.min (k - i - 1) (j - l - 1) in
  let ll := Z.max (k - i - 1) (j - l - 1) in
  (0 < ls)%Z ->
  trace (count_single_loop i j k l v) p
  = (if (ls + ll <=? 30)%Z then [Wr (Cell1 internal_length (ls + ll)%Z)] else [])
    ++ [Wr (Cell2 base_internal (i + 1)%Z (k - 1)%Z);
        Wr (Cell2 base_internal (l + 1)%Z (j - 1)%Z);
        Wr (Cell2 internal_explicit (min_u32 ls 4) (min_u32 ll 4))]
    ++ (if (ls =? ll)%Z
        then [Wr (Cell1 internal_symmetry (min_u32 ll 15))] else [])
    ++ [Wr (Cell1 internal_asymmetry (min_u32 (ll - ls)%Z 28));
        Wr (Cell2 mismatch_internal i j);
        Wr (Cell2 mismatch_internal l k)].
Proof.
  intros Hwf ls ll Hls.
  destruct (single_loop_indices i j k l Hwf)
    as (Hmm & Hi1 & Hk1 & Hl1 & Hj1 & Hadd & Hsub).
  fold ls ll in Hadd, Hsub.
  unfold count_single_loop. rewrite Hmm. fold ls ll.
  destruct (Z.eqb_spec ll 0) as [E|_]; [lia|].
  destruct (Z.eqb_spec ls 0) as [E|_]; [lia|].
  rewrite Hi1, Hk1, Hl1, Hj1, Hadd, Hsub.
  destruct (ls + ll <=? 30)%Z; destruct (ls =? ll)%Z; reflexivity.
Qed.

End SingleLoopFacts.

(** ** Multi-branch and external loops *)

Section PairedFacts.

Context {ScoreType : Type} `{ScoreOps ScoreType}.
Local Open Scope score_scope.

Implicit Types (p : PositionalNearestNeighbor ScoreType) (v : ScoreType).

(** C7: [score_multi_paired(i, j)] reads [mismatch_multi(j, i)] and is the
    very call [score_multi_loop(j, i)]; [score_external_paired(i, j)] reads
    [mismatch_external(j, i)]; the unpaired operations read their table at
    [(i, j)].  [count_multi_paired(i, j, v)] and
    [count_external_paired(i, j, v)] add [v] to exactly the transposed entry
    and change no other entry. *)
Theorem paired_roles_transposed p v (i j : Z) :
  (trace (score_multi_paired i j) p = [Rd (Cell2 mismatch_multi j i)]
   /\ result (score_multi_paired i j) p = score_ p (Cell2 mismatch_multi j i)
   /\ score_multi_paired i j p = score_multi_loop j i p
   /\ trace (score_multi_loop i j) p = [Rd (Cell2 mismatch_multi i j)]
   /\ trace (score_multi_unpaired i j) p = [Rd (Cell2 base_multi i j)])
  /\ (trace (score_external_paired i j) p = [Rd (Cell2 mismatch_external j i)]
      /\ result (score_external_paired i j) p
         = score_ p (Cell2 mismatch_external j i)
      /\ trace (score_external_unpaired i j) p = [Rd (Cell2 base_external i j)])
  /\ (trace (count_multi_paired i j v) p = [Wr (Cell2 mismatch_multi j i)]
      /\ count_ (final (count_multi_paired i j v) p) (Cell2 mismatch_multi j i)
         = count_ p (Cell2 mismatch_multi j i) + v
      /\ (forall c, c <> Cell2 mismatch_multi j i ->
                    count_ (final (count_multi_paired i j v) p) c = count_ p c)
      /\ score_ (final (count_multi_paired i j v) p) = score_ p)
  /\ (trace (count_external_paired i j v) p = [Wr (Cell2 mismatch_external j i)]
      /\ count_ (final (count_external_paired i j v) p)
           (Cell2 mismatch_external j i)
         = count_ p (Cell2 mismatch_external j i) + v
      /\ (forall c, c <> Cell2 mismatch_external j i ->
                    count_ (final (count_external_paired i j v) p) c = count_ p c)
      /\ score_ (final (count_external_paired i j v) p) = score_ p).
Proof.
  run_members. run_monad. split_all; try reflexivity.
  - decide_cells. reflexivity.
  - intros c Hc. unfold add_at.
    destruct (cell_eq_dec (Cell2 mismatch_multi j i) c) as [E|E];
      [exfalso; apply Hc; symmetry; exact E | reflexivity].
  - decide_cells. reflexivity.
  - intros c Hc. unfold add_at.
    destruct (cell_eq_dec (Cell2 mismatch_external j i) c) as [E|E];
      [exfalso; apply Hc; symmetry; exact E | reflexivity].
Qed.

End PairedFacts.

(** ** Single loops: stack isolation and classification *)

Section SingleLoopKinds.

Context {ScoreType : Type} `{ScoreOps ScoreType}.
Local Open Scope score_scope.

Implicit Types (p : PositionalNearestNeighbor ScoreType) (v : ScoreType).

(** C8: in the stack configuration ([ll = 0]) [score_single_loop] reads
    [helix_stacking(i, j)] and [helix_stacking(l, k)] and nothing else, and
    [count_single_loop] adds [v] to these two entries and changes no other
    entry; no access goes to [base_internal], [mismatch_internal],
    [internal_explicit] or any one-index table. *)
Theorem stack_isolation p v (i j k l : Z) :
  wf_single_loop i j k l ->
  Z.max ((k - 1) - (i + 1) + 1) ((j - 1) - (l + 1) + 1) = 0%Z ->
  let p' := final (count_single_loop i j k l v) p in
  trace (score_single_loop i j k l) p
  = [Rd (Cell2 helix_stacking i j); Rd (Cell2 helix_stacking l k)]
  /\ final (score_single_loop i j k l) p = p
  /\ trace (count_single_loop i j k l v) p
     = [Wr (Cell2 helix_stacking i j); Wr (Cell2 helix_stacking l k)]
  /\ count_ p' (Cell2 helix_stacking i j) = count_ p (Cell2 helix_stacking i j) + v
  /\ count_ p' (Cell2 helix_stacking l k) = count_ p (Cell2 helix_stacking l k) + v
  /\ (forall c, c <> Cell2 helix_stacking i j -> c <> Cell2 helix_stacking l k ->
                count_ p' c = count_ p c)
  /\ score_ p' = score_ p
  /\ (forall c, In c (reads (trace (score_single_loop i j k l) p))
                \/ In c (writes (trace (count_single_loop i j k l v) p)) ->
                in_table2 base_internal c = false
                /\ in_table2 mismatch_internal c = false
                /\ in_table2 internal_explicit c = false
                /\ forall t, in_table1 t c = false).
Proof.
  intros Hwf Hll p'.
  replace ((k - 1) - (i + 1) + 1)%Z with (k - i - 1)%Z in Hll by lia.
  replace ((j - 1) - (l + 1) + 1)%Z with (j - l - 1)%Z in Hll by lia.
  pose proof (score_single_loop_stack p i j k l Hwf Hll) as Hs.
  pose proof (count_single_loop_stack p v i j k l Hwf Hll) as Hc.
  pose proof (count_call_replay (SingleLoop i j k l) v p) as Hr.
  pose proof (count_call_score (SingleLoop i j k l) v p) as Hsc.
  cbn [count_call] in Hr, Hsc. rewrite Hc in Hr. cbn [writes add_all] in Hr.
  fold p' in Hr, Hsc.
  assert (Hil : i <> l) by (destruct Hwf as (? & ? & ? & ? & ?); lia).
  unfold trace, final. rewrite Hs. fold (trace (count_single_loop i j k l v) p).
  rewrite Hc. cbn [fst snd reads writes].
  split_all; try reflexivity.
  - rewrite Hr. decide_cells. reflexivity.
  - rewrite Hr. decide_cells. reflexivity.
  - intros c H1 H2. rewrite Hr. unfold add_at.
    destruct (cell_eq_dec (Cell2 helix_stacking l k) c) as [E|_];
      [exfalso; apply H2; symmetry; exact E|].
    destruct (cell_eq_dec (Cell2 helix_stacking i j) c) as [E|_];
      [exfalso; apply H1; symmetry; exact E|].
    reflexivity.
  - exact Hsc.
  - intros c [[<-|[<-|[]]]|[<-|[<-|[]]]]; split_all; try reflexivity;
      intros t; reflexivity.
Qed.

End SingleLoopKinds.

Lemma stack_isolation_witness :
  wf_single_loop 2 9 3 8 /\
  trace (count_single_loop 2 9 3 8 1%Z) index_tables
  = [Wr (Cell2 helix_stacking 2 9); Wr (Cell2 helix_stacking 8 3)].
Proof.
  assert (Hwf : wf_single_loop 2 9 3 8) by (unfold wf_single_loop; lia).
  split; [exact Hwf|].
  pose proof (stack_isolation index_tables 1%Z 2 9 3 8 Hwf eq_refl)
    as (_ & _ & Ht & _).
  exact Ht.
Defined.

Section Classification.

Context {ScoreType : Type} `{ScoreOps ScoreType}.
Local Open Scope score_scope.

Implicit Types (p : PositionalNearestNeighbor ScoreType) (v : ScoreType).

(** The branch shown by the two logs, from the two lengths. *)
Lemma single_loop_kinds p v (i j k l : Z) :
  wf_single_loop i j k l ->
  let ls := Z.min (k - i - 1) (j - l - 1) in
  let ll := Z.max (k - i - 1) (j - l - 1) in
  let ks := kind_of_cells (reads (trace (score_single_loop i j k l) p)) in
  let kc := kind_of_cells (writes (trace (count_single_loop i j k l v) p)) in
  (ll = 0%Z /\ ks = Some Stack /\ kc = Some Stack)
  \/ ((0 < ll)%Z /\ ls = 0%Z /\ ks = Some Bulge /\ kc = Some Bulge)
  \/ ((0 < ls)%Z /\ (0 < ll)%Z /\ ks = Some Internal /\ kc = Some Internal).
Proof.
  intros Hwf ls ll ks kc.
  assert (Hrange : (0 <= ls <= ll)%Z)
    by (destruct Hwf as (? & ? & ? & ? & ?); unfold ls, ll; lia).
  destruct (Z.eq_dec ll 0) as [Hll|Hll].
  - left. split; [exact Hll|]. unfold ks, kc, trace.
    rewrite (score_single_loop_stack p i j k l Hwf Hll).
    fold (trace (count_single_loop i j k l v) p).
    rewrite (count_single_loop_stack p v i j k l Hwf Hll).
    split; reflexivity.
  - destruct (Z.eq_dec ls 0) as [Hls|Hls].
    + right. left. split; [lia|]. split; [exact Hls|]. unfold ks, kc, trace.
      rewrite (score_single_loop_bulge p i j k l Hwf) by (fold ls ll; lia).
      fold (trace (count_single_loop i j k l v) p).
      rewrite (count_single_loop_bulge p v i j k l Hwf) by (fold ls ll; lia).
      fold ll. destruct (ll <=? 30)%Z; split; reflexivity.
    + right. right. split; [lia|]. split; [lia|]. unfold ks, kc.
      assert (Hpos : (0 < ls)%Z) by lia.
      destruct (score_single_loop_internal p i j k l Hwf Hpos) as (_ & Ht).
      rewrite Ht.
      rewrite (count_single_loop_internal p v i j k l Hwf Hpos).
      fold ls ll.
      destruct (ls + ll <=? 30)%Z; destruct (ls =? ll)%Z; split; reflexivity.
Qed.

(** The branch of the two operations as their logs show it. *)
Lemma single_loop_branches p v (i j k l : Z) :
  wf_single_loop i j k l ->
  let l1 := ((k - 1) - (i + 1) + 1)%Z in
  let l2 := ((j - 1) - (l + 1) + 1)%Z in
  let ls := Z.min l1 l2 in
  let ll := Z.max l1 l2 in
  let ks := kind_of_cells (reads (trace (score_single_loop i j k l) p)) in
  let kc := kind_of_cells (writes (trace (count_single_loop i j k l v) p)) in
  (ks = Some Stack <-> ll = 0%Z)
  /\ (ks = Some Bulge <-> (0 < ll)%Z /\ ls = 0%Z)
  /\ (ks = Some Internal <-> (0 < ll)%Z /\ ls <> 0%Z)
  /\ kc = ks
  /\ ks = Some (spec_classify l1 l2)
  /\ (ls = 0%Z -> ll = 0%Z -> ks = Some Stack /\ ks <> Some Bulge)
  /\ (ll = 0%Z ->
      result (score_single_loop i j k l) p
      = score_ p (Cell2 helix_stacking i j) + score_ p (Cell2 helix_stacking l k)
      /\ writes (trace (count_single_loop i j k l v) p)
         = [Cell2 helix_stacking i j; Cell2 helix_stacking l k]).
Proof.
  intros Hwf l1 l2 ls ll ks kc.
  assert (E1 : l1 = (k - i - 1)%Z) by (unfold l1; lia).
  assert (E2 : l2 = (j - l - 1)%Z) by (unfold l2; lia).
  pose proof (single_loop_kinds p v i j k l Hwf) as Hk.
  cbv zeta in Hk. rewrite <- E1, <- E2 in Hk. fold ls ll ks kc in Hk.
  assert (Hcl : (ll = 0%Z -> spec_classify l1 l2 = Stack)
                /\ ((0 < ll)%Z -> ls = 0%Z -> spec_classify l1 l2 = Bulge)
                /\ ((0 < ls)%Z -> (0 < ll)%Z -> spec_classify l1 l2 = Internal)).
  { unfold spec_classify. fold ls ll.
    destruct (Z.eqb_spec ll 0); destruct (Z.eqb_spec ls 0);
      split_all; intros; first [reflexivity | lia]. }
  destruct Hcl as (Hc1 & Hc2 & Hc3).
  assert (Hstack : ll = 0%Z ->
      result (score_single_loop i j k l) p
      = score_ p (Cell2 helix_stacking i j) + score_ p (Cell2 helix_stacking l k)
      /\ writes (trace (count_single_loop i j k l v) p)
         = [Cell2 helix_stacking i j; Cell2 helix_stacking l k]).
  { intros Hll. unfold ll in Hll. rewrite E1, E2 in Hll. unfold result.
    rewrite (score_single_loop_stack p i j k l Hwf Hll).
    rewrite (count_single_loop_stack p v i j k l Hwf Hll).
    split; reflexivity. }
  destruct Hk as [(Hll & Hs & Hc) | [(Hll & Hls & Hs & Hc) | (Hls & Hll & Hs & Hc)]];
    rewrite Hs, Hc; split_all; try exact Hstack;
    try (split; intros; first [lia | discriminate | reflexivity | (split; lia)]);
    try reflexivity;
    try (intros; lia);
    try (f_equal; symmetry; auto).
Qed.

End Classification.

(** ** Internal loops *)

Section InternalFacts.

Context {ScoreType : Type} `{ScoreOps ScoreType}.
Local Open Scope score_scope.

Implicit Types (p : PositionalNearestNeighbor ScoreType) (v : ScoreType).

(** C5 (as amended): for a well-formed internal loop ([ls > 0]) and with
    exact addition, [score_single_loop] returns the sum of the specification
    with every clamp [min(x, b)] computed as [min(x mod 2^32, b)]; it is the
    sum of the specification itself whenever [ls + ll < 2^32].  The symmetry entry is
    read when [ls = ll] and not otherwise, and [count_single_loop] adds [v]
    to [internal_symmetry[min(ll mod 2^32, 15)]] exactly once when [ls = ll]
    and to no symmetry bucket when [ls <> ll]. *)
Theorem internal_loop_sum p v (i j k l : Z) :
  wf_single_loop i j k l ->
  let ls := Z.min ((k - 1) - (i + 1) + 1) ((j - 1) - (l + 1) + 1) in
  let ll := Z.max ((k - 1) - (i + 1) + 1) ((j - 1) - (l + 1) + 1) in
  let rd := reads (trace (score_single_loop i j k l) p) in
  let wr := writes (trace (count_single_loop i j k l v) p) in
  let p' := final (count_single_loop i j k l v) p in
  (0 < ls)%Z ->
  (sadd_assoc ScoreType ->
   result (score_single_loop i j k l) p = internal_sum clamp_u32 p i j k l)
  /\ (sadd_assoc ScoreType -> (ls + ll < 2 ^ 32)%Z ->
      result (score_single_loop i j k l) p = spec_score_internal p i j k l)
  /\ (ls = ll ->
      In (Cell1 internal_symmetry (clamp_u32 ll 15)) rd
      /\ count_occ cell_eq_dec wr (Cell1 internal_symmetry (clamp_u32 ll 15)) = 1%nat
      /\ count_ p' (Cell1 internal_symmetry (clamp_u32 ll 15))
         = count_ p (Cell1 internal_symmetry (clamp_u32 ll 15)) + v
      /\ (forall n, n <> clamp_u32 ll 15 ->
                    count_ p' (Cell1 internal_symmetry n)
                    = count_ p (Cell1 internal_symmetry n)))
  /\ (ls <> ll ->
      forall n, ~ In (Cell1 internal_symmetry n) rd
                /\ ~ In (Cell1 internal_symmetry n) wr
                /\ count_ p' (Cell1 internal_symmetry n)
                   = count_ p (Cell1 internal_symmetry n)).
Proof.
  intros Hwf ls ll rd wr p' Hls.
  assert (E1 : ((k - 1) - (i + 1) + 1 = k - i - 1)%Z) by lia.
  assert (E2 : ((j - 1) - (l + 1) + 1 = j - l - 1)%Z) by lia.
  assert (Hls' : (0 < Z.min (k - i - 1) (j - l - 1))%Z)
    by (unfold ls in Hls; rewrite E1, E2 in Hls; exact Hls).
  destruct (score_single_loop_internal p i j k l Hwf Hls') as (Hres & Htr).
  pose proof (count_single_loop_internal p v i j k l Hwf Hls') as Hct.
  pose proof (count_call_replay (SingleLoop i j k l) v p) as Hr.
  cbn [count_call] in Hr. fold p' wr in Hr.
  cbv zeta in Hres, Htr, Hct. rewrite <- E1, <- E2 in Hres, Htr, Hct.
  fold ls ll in Hres, Htr, Hct.
  assert (Hgen : sadd_assoc ScoreType ->
                 result (score_single_loop i j k l) p
                 = internal_sum clamp_u32 p i j k l).
  { intros Ha. rewrite Hres. unfold internal_sum. fold ls ll. unfold clamp_u32.
    rewrite !min_u32_clamp by lia.
    destruct (ls =? ll)%Z; rewrite !Ha; reflexivity. }
  split; [exact Hgen|].
  split.
  { intros Ha Hsmall. rewrite (Hgen Ha). unfold spec_score_internal, internal_sum.
    fold ls ll. unfold clamp_u32.
    assert (Hrange : (0 < ls <= ll)%Z) by (unfold ls, ll in *; lia).
    rewrite !Z.mod_small by lia. reflexivity. }
  unfold rd, wr in *. rewrite Htr. rewrite Hct in Hr |- *.
  unfold clamp_u32. rewrite <- !min_u32_clamp by lia.
  destruct (Z.eqb_spec ls ll) as [Heq|Hne];
    destruct (ls + ll <=? 30)%Z;
    cbn [reads writes app count_occ add_all] in *; rewrite Hr;
    (split; [intros Hq; try contradiction | intros Hq; try contradiction]).
  - split_all; try (intros n Hn); decide_cells; try reflexivity.
    right; right; right; right; left; reflexivity.
  - split_all; try (intros n Hn); decide_cells; try reflexivity.
    right; right; right; right; left; reflexivity.
  - intros n. split_all;
      try (intros Hin; cbn [In] in Hin; intuition discriminate).
    decide_cells; reflexivity.
  - intros n. split_all;
      try (intros Hin; cbn [In] in Hin; intuition discriminate).
    decide_cells; reflexivity.
Qed.

End InternalFacts.

Lemma Z_sadd_assoc : sadd_assoc Z.
Proof. intros x y z. apply Z.add_assoc. Defined.

Lemma internal_loop_sum_witness :
  sadd_assoc Z /\ wf_single_loop 0 20 8 12 /\
  result (score_single_loop 0 20 8 12) index_tables
  = spec_score_internal index_tables 0 20 8 12.
Proof.
  assert (Hwf : wf_single_loop 0 20 8 12) by (unfold wf_single_loop; lia).
  split; [exact Z_sadd_assoc|]. split; [exact Hwf|].
  pose proof (internal_loop_sum index_tables 1%Z 0 20 8 12 Hwf eq_refl)
    as (_ & Hspec & _).
  apply Hspec; [exact Z_sadd_assoc | reflexivity].
Defined.

(** C5 as stated fails: with [ls = 1] and [ll = 2^32 - 1] the sum [ls + ll]
    converts to [0] in [u_int32_t], and [internal_length[0]] is read instead
    of [internal_length[30]]. *)
Lemma internal_loop_sum_counterexample :
  ~ (forall (p : PositionalNearestNeighbor Z) (i j k l : Z),
        wf_single_loop i j k l ->
        (0 < Z.min ((k - 1) - (i + 1) + 1) ((j - 1) - (l + 1) + 1))%Z ->
        result (score_single_loop i j k l) p = spec_score_internal p i j k l).
Proof.
  intros Hall.
  assert (Hwf : wf_single_loop 0 4294967298 2 2) by (unfold wf_single_loop; lia).
  specialize (Hall index_tables 0 4294967298 2 2 Hwf eq_refl).
  vm_compute in Hall. discriminate Hall.
Qed.

(** ** The accumulation as a whole *)

Ltac nodup_cells :=
  repeat (apply NoDup_cons;
          [ cbn [In]; intros Hin;
            repeat (destruct Hin as [Hin|Hin];
                    [ try discriminate Hin;
                      try (exfalso; injection Hin; intros; lia) | ]);
            try exact Hin
          | ]);
  try apply NoDup_nil.

Section Accumulation.

Context {ScoreType : Type} `{ScoreOps ScoreType}.
Local Open Scope score_scope.

Implicit Types (p : PositionalNearestNeighbor ScoreType) (v : ScoreType)
  (c : loop_call).

(** Under the index convention no entry is written twice by one call. *)
Lemma count_call_nodup c v p :
  well_formed c -> NoDup (writes (trace (count_call c v) p)).
Proof.
  destruct c as [i j|i j k l|i j|i j|i j|i j|i j]; intros Hwf;
    cbn [well_formed count_call] in *.
  - destruct (hairpin_indices i j Hwf) as (Hl & Hi1 & Hj1).
    unfold count_hairpin. rewrite Hl, Hi1, Hj1.
    destruct (j - i - 1 <=? 30)%Z; run_monad; nodup_cells.
  - assert (Hil : i <> l) by (destruct Hwf as (? & ? & ? & ? & ?); lia).
    assert (Hrange : (0 <= Z.min (k - i - 1) (j - l - 1)
                      <= Z.max (k - i - 1) (j - l - 1))%Z)
      by (destruct Hwf as (? & ? & ? & ? & ?); lia).
    destruct (Z.eq_dec (Z.max (k - i - 1) (j - l - 1)) 0) as [Hll|Hll].
    + rewrite (count_single_loop_stack p v i j k l Hwf Hll).
      cbn [writes]. nodup_cells.
    + destruct (Z.eq_dec (Z.min (k - i - 1) (j - l - 1)) 0) as [Hls|Hls].
      * rewrite (count_single_loop_bulge p v i j k l Hwf) by lia.
        destruct (Z.max (k - i - 1) (j - l - 1) <=? 30)%Z;
          cbn [writes app]; nodup_cells.
      * rewrite (count_single_loop_internal p v i j k l Hwf) by lia.
        destruct (Z.min (k - i - 1) (j - l - 1)
                  + Z.max (k - i - 1) (j - l - 1) <=? 30)%Z;
          destruct (Z.min (k - i - 1) (j - l - 1)
                    =? Z.max (k - i - 1) (j - l - 1))%Z;
          cbn [writes app]; nodup_cells.
  - run_members; run_monad; nodup_cells.
  - run_members; run_monad; nodup_cells.
  - run_members; run_monad; nodup_cells.
  - run_members; run_monad; nodup_cells.
  - run_members; run_monad; nodup_cells.
Qed.

(** A written entry grows by [v]; every other entry keeps its value. *)
Lemma count_call_increment c v p (x : cell) :
  well_formed c ->
  In x (writes (trace (count_call c v) p)) ->
  count_ (final (count_call c v) p) x = count_ p x + v.
Proof.
  intros Hwf Hin. rewrite count_call_replay.
  apply add_all_once; [apply count_call_nodup; exact Hwf | exact Hin].
Qed.

Lemma count_call_frame c v p (x : cell) :
  ~ In x (writes (trace (count_call c v) p)) ->
  count_ (final (count_call c v) p) x = count_ p x.
Proof.
  intros Hn. rewrite count_call_replay. apply add_all_notin. exact Hn.
Qed.

End Accumulation.

Lemma same_cells_no_skip (cs : list cell) (x : cell) :
  In x cs <-> In x cs /\ (false = true -> in_length_table x = false).
Proof.
  split; [intros Hin; split; [exact Hin | intros Hf; discriminate Hf]
         | intros [Hin _]; exact Hin].
Qed.

Lemma same_cells_skip_head (h : cell) (cs : list cell) (x : cell) :
  in_length_table h = true ->
  forallb (fun y => negb (in_length_table y)) cs = true ->
  In x cs <-> In x (h :: cs) /\ (true = true -> in_length_table x = false).
Proof.
  intros Hh Hcs. rewrite forallb_forall in Hcs. split.
  - intros Hin. split; [right; exact Hin|]. intros _.
    specialize (Hcs x Hin). destruct (in_length_table x); [discriminate Hcs | reflexivity].
  - intros [[<-|Hin] Hsk]; [|exact Hin].
    specialize (Hsk eq_refl). rewrite Hh in Hsk. discriminate Hsk.
Qed.

Section Mirror.

Context {ScoreType : Type} `{ScoreOps ScoreType}.
Local Open Scope score_scope.

Implicit Types (p : PositionalNearestNeighbor ScoreType) (v : ScoreType)
  (c : loop_call).

(** The entries written by [count_*] are the entries read by [score_*],
    less the entry of the length table when the guard skips it. *)
Lemma writes_vs_reads c v p (x : cell) :
  well_formed c ->
  In x (writes (trace (count_call c v) p))
  <-> In x (reads (trace (score_call c) p))
      /\ (skips_length c = true -> in_length_table x = false).
Proof.
  destruct c as [i j|i j k l|i j|i j|i j|i j|i j]; intros Hwf;
    cbn [well_formed count_call score_call] in *;
    try (run_members; run_monad; apply same_cells_no_skip).
  - (* hairpin *)
    destruct (hairpin_indices i j Hwf) as (Hl & Hi1 & Hj1).
    unfold skips_length, raw_length, count_hairpin, score_hairpin.
    rewrite Hl, Hi1, Hj1. destruct Hwf as (Hi & Hij & Hj).
    destruct (Z.leb_spec (j - i - 1) 30) as [Hle|Hgt].
    + destruct (Z.ltb_spec 30 (j - i - 1)) as [Hc|_]; [lia|].
      rewrite min_u32_small by lia. rewrite Z.min_l by lia.
      run_monad. apply same_cells_no_skip.
    + destruct (Z.ltb_spec 30 (j - i - 1)) as [_|Hc]; [|lia].
      run_monad. apply same_cells_skip_head; reflexivity.
  - (* single loop *)
    destruct (single_loop_indices i j k l Hwf) as (Hmm & _).
    unfold skips_length, raw_length. rewrite Hmm.
    pose proof (score_single_loop_stack p i j k l Hwf) as Hs1.
    pose proof (count_single_loop_stack p v i j k l Hwf) as Hc1.
    pose proof (score_single_loop_bulge p i j k l Hwf) as Hs2.
    pose proof (count_single_loop_bulge p v i j k l Hwf) as Hc2.
    pose proof (score_single_loop_internal p i j k l Hwf) as Hs3.
    pose proof (count_single_loop_internal p v i j k l Hwf) as Hc3.
    pose proof (single_loop_indices i j k l Hwf) as (_ & _ & _ & _ & _ & Hadd & _).
    cbv zeta in Hs2, Hc2, Hs3, Hc3.
    assert (Hrange : (0 <= Z.min (k - i - 1) (j - l - 1)
                      <= Z.max (k - i - 1) (j - l - 1))%Z)
      by (destruct Hwf as (? & ? & ? & ? & ?); lia).
    assert (Hsum : (Z.min (k - i - 1) (j - l - 1)
                    + Z.max (k - i - 1) (j - l - 1) < 2 ^ 64)%Z)
      by (destruct Hwf as (? & ? & ? & ? & ?); lia).
    set (ls := Z.min (k - i - 1) (j - l - 1)) in *.
    set (ll := Z.max (k - i - 1) (j - l - 1)) in *.
    destruct (Z.eqb_spec ll 0) as [Hll|Hll].
    + unfold trace. rewrite Hs1 by exact Hll.
      fold (trace (count_single_loop i j k l v) p). rewrite Hc1 by exact Hll.
      cbn [snd reads writes]. apply same_cells_no_skip.
    + destruct (Z.eqb_spec ls 0) as [Hls|Hls].
      * unfold trace. rewrite Hs2 by lia.
        fold (trace (count_single_loop i j k l v) p). rewrite Hc2 by lia.
        destruct (Z.leb_spec ll 30) as [Hle|Hgt].
        -- destruct (Z.ltb_spec 30 ll) as [Hc|_]; [lia|].
           rewrite min_u16_small by lia. rewrite Z.min_l by lia.
           cbn [snd reads writes app]. apply same_cells_no_skip.
        -- destruct (Z.ltb_spec 30 ll) as [_|Hc]; [|lia].
           cbn [snd reads writes app].
           apply same_cells_skip_head; reflexivity.
      * destruct Hs3 as (_ & Hs3); [lia|]. rewrite Hs3, Hc3 by lia.
        rewrite Hadd.
        destruct (Z.leb_spec (ls + ll) 30) as [Hle|Hgt].
        -- destruct (Z.ltb_spec 30 (ls + ll)) as [Hc|_]; [lia|].
           rewrite (min_u32_small (ls + ll)) by lia.
           rewrite (Z.min_l (ls + ll)) by lia.
           destruct (ls =? ll)%Z; cbn [reads writes app];
             apply same_cells_no_skip.
        -- destruct (Z.ltb_spec 30 (ls + ll)) as [_|Hc]; [|lia].
           destruct (ls =? ll)%Z; cbn [reads writes app];
             apply same_cells_skip_head; reflexivity.
Qed.

(** C1: for every loop kind and every well-formed argument tuple, the
    entries written by [count_X(args, v)] are exactly the entries read by
    [score_X(args)], except that the entry of [hairpin_length],
    [bulge_length] or [internal_length] is left out when the raw length is
    above 30; every written entry grows by exactly [v], no other count entry
    and no score entry changes, and [score_X] changes nothing. *)
Theorem count_mirrors_score c v p :
  well_formed c ->
  let rd := reads (trace (score_call c) p) in
  let wr := writes (trace (count_call c v) p) in
  let p' := final (count_call c v) p in
  (forall x, In x wr <->
             In x rd /\ (skips_length c = true -> in_length_table x = false))
  /\ (forall x, In x wr -> count_ p' x = count_ p x + v)
  /\ (forall x, ~ In x wr -> count_ p' x = count_ p x)
  /\ score_ p' = score_ p
  /\ reads (trace (count_call c v) p) = []
  /\ final (score_call c) p = p
  /\ writes (trace (score_call c) p) = [].
Proof.
  intros Hwf rd wr p'. split_all.
  - intros x. apply writes_vs_reads. exact Hwf.
  - intros x Hin. apply count_call_increment; assumption.
  - intros x Hn. apply count_call_frame. exact Hn.
  - apply count_call_score.
  - apply count_call_reads.
  - apply score_call_final.
  - apply score_call_writes.
Qed.

End Mirror.

Lemma count_mirrors_score_witness :
  well_formed (Hairpin 2 10) /\
  count_ (final (count_call (Hairpin 2 10) 1%Z) index_tables)
    (Cell1 hairpin_length 7) = 1%Z.
Proof.
  assert (Hwf : well_formed (Hairpin 2 10))
    by (unfold well_formed, wf_hairpin; lia).
  split; [exact Hwf|].
  pose proof (count_mirrors_score (Hairpin 2 10) 1%Z index_tables Hwf)
    as (_ & Hinc & _).
  apply (Hinc (Cell1 hairpin_length 7)). left. reflexivity.
Defined.

(** ** Single loops: classification, on the logs and on the tables *)

Section ClassificationTables.

Context {ScoreType : Type} `{ScoreOps ScoreType}.
Local Open Scope score_scope.

Implicit Types (p : PositionalNearestNeighbor ScoreType) (v : ScoreType).

(** C4: with [l1 = (k-1)-(i+1)+1], [l2 = (j-1)-(l+1)+1], [ls = min], [ll =
    max], both [score_single_loop] and [count_single_loop] take the stack
    branch exactly when [ll = 0], the bulge branch exactly when [ll > 0] and
    [ls = 0], and the internal-loop branch otherwise; [ls = ll = 0] is a
    stack, never a bulge; the two operations take the same branch.  In the
    stack branch the score is [helix_stacking(i,j) + helix_stacking(l,k)]
    and the count adds [v] to these two entries of the count tables and
    changes no other entry.  In every branch the entries of the log of
    [count_single_loop] are the entries of the count tables that grow by
    [v], and all others keep their value. *)
Theorem single_loop_classification p v (i j k l : Z) :
  wf_single_loop i j k l ->
  let l1 := ((k - 1) - (i + 1) + 1)%Z in
  let l2 := ((j - 1) - (l + 1) + 1)%Z in
  let ls := Z.min l1 l2 in
  let ll := Z.max l1 l2 in
  let ks := kind_of_cells (reads (trace (score_single_loop i j k l) p)) in
  let kc := kind_of_cells (writes (trace (count_single_loop i j k l v) p)) in
  let wr := writes (trace (count_single_loop i j k l v) p) in
  let p' := final (count_single_loop i j k l v) p in
  (ks = Some Stack <-> ll = 0%Z)
  /\ (ks = Some Bulge <-> (0 < ll)%Z /\ ls = 0%Z)
  /\ (ks = Some Internal <-> (0 < ll)%Z /\ ls <> 0%Z)
  /\ kc = ks
  /\ ks = Some (spec_classify l1 l2)
  /\ (ls = 0%Z -> ll = 0%Z -> ks = Some Stack /\ ks <> Some Bulge)
  /\ (ll = 0%Z ->
      result (score_single_loop i j k l) p
      = score_ p (Cell2 helix_stacking i j) + score_ p (Cell2 helix_stacking l k)
      /\ wr = [Cell2 helix_stacking i j; Cell2 helix_stacking l k]
      /\ count_ p' (Cell2 helix_stacking i j)
         = count_ p (Cell2 helix_stacking i j) + v
      /\ count_ p' (Cell2 helix_stacking l k)
         = count_ p (Cell2 helix_stacking l k) + v
      /\ (forall x, x <> Cell2 helix_stacking i j ->
                    x <> Cell2 helix_stacking l k ->
                    count_ p' x = count_ p x))
  /\ (forall x, In x wr -> count_ p' x = count_ p x + v)
  /\ (forall x, ~ In x wr -> count_ p' x = count_ p x)
  /\ score_ p' = score_ p.
Proof.
  intros Hwf l1 l2 ls ll ks kc wr p'.
  destruct (single_loop_branches p v i j k l Hwf)
    as (H1 & H2 & H3 & H4 & H5 & H6 & H7).
  fold l1 l2 ls ll ks kc wr in H1, H2, H3, H4, H5, H6, H7.
  assert (Hinc : forall x, In x wr -> count_ p' x = count_ p x + v).
  { intros x Hin.
    apply (count_call_increment (SingleLoop i j k l) v p x Hwf Hin). }
  assert (Hfr : forall x, ~ In x wr -> count_ p' x = count_ p x).
  { intros x Hn. apply (count_call_frame (SingleLoop i j k l) v p x Hn). }
  split; [exact H1|]. split; [exact H2|]. split; [exact H3|].
  split; [exact H4|]. split; [exact H5|]. split; [exact H6|].
  split.
  { intros Hll. destruct (H7 Hll) as (Hres & Hwr).
    split; [exact Hres|]. split; [exact Hwr|].
    split; [apply Hinc; rewrite Hwr; left; reflexivity|].
    split; [apply Hinc; rewrite Hwr; right; left; reflexivity|].
    intros x Hx1 Hx2. apply Hfr. rewrite Hwr.
    intros [E|[E|[]]]; [apply Hx1 | apply Hx2]; symmetry; exact E. }
  split; [exact Hinc|]. split; [exact Hfr|].
  apply (count_call_score (SingleLoop i j k l) v p).
Qed.

End ClassificationTables.

Lemma single_loop_classification_witness :
  wf_single_loop 0 8 1 6 /\
  kind_of_cells (reads (trace (score_single_loop 0 8 1 6) index_tables))
  = Some Bulge.
Proof.
  assert (Hwf : wf_single_loop 0 8 1 6) by (unfold wf_single_loop; lia).
  split; [exact Hwf|].
  pose proof (single_loop_classification index_tables 1%Z 0 8 1 6 Hwf)
    as (_ & Hb & _).
  apply Hb. split; [reflexivity | reflexivity].
Defined.

(** ** Clamp on the score side, guard on the count side *)

Lemma on_table1_nil (t : table1) (cs : list cell) (n : Z) :
  on_table1 t cs = [] -> ~ In (Cell1 t n) cs.
Proof.
  intros Hnil Hin.
  assert (Hf : In (Cell1 t n) (on_table1 t cs)).
  { unfold on_table1. apply filter_In. split; [exact Hin|].
    cbn [in_table1]. destruct (table1_eq_dec t t) as [_|Hne];
      [reflexivity | exfalso; apply Hne; reflexivity]. }
  rewrite Hnil in Hf. exact Hf.
Qed.

Section ClampAndGuard.

Context {ScoreType : Type} `{ScoreOps ScoreType}.
Local Open Scope score_scope.

Implicit Types (p : PositionalNearestNeighbor ScoreType) (v : ScoreType)
  (c : loop_call).

Lemma untouched_length_table c v p (t : table1) :
  on_table1 t (writes (trace (count_call c v) p)) = [] ->
  forall n, count_ (final (count_call c v) p) (Cell1 t n) = count_ p (Cell1 t n).
Proof.
  intros Hnil n. apply count_call_frame. apply on_table1_nil. exact Hnil.
Qed.

Lemma hairpin_length_accesses p v (i j : Z) :
  wf_hairpin i j ->
  let l := ((j - 1) - (i + 1) + 1)%Z in
  let rd := reads (trace (score_hairpin i j) p) in
  let wr := writes (trace (count_hairpin i j v) p) in
  let p' := final (count_hairpin i j v) p in
  ((l <= 30)%Z ->
   on_table1 hairpin_length rd = [Cell1 hairpin_length l]
   /\ on_table1 hairpin_length wr = [Cell1 hairpin_length l])
  /\ ((30 < l)%Z ->
      on_table1 hairpin_length rd
      = [Cell1 hairpin_length (Z.min (l mod 2 ^ 32) 30)]
      /\ on_table1 hairpin_length wr = []
      /\ forall n, count_ p' (Cell1 hairpin_length n)
                   = count_ p (Cell1 hairpin_length n))
  /\ ((30 < l)%Z -> (l < 2 ^ 32)%Z ->
      on_table1 hairpin_length rd = [Cell1 hairpin_length 30]
      /\ result (score_hairpin i j) p
         = szero + score_ p (Cell1 hairpin_length 30)
           + score_ p (Cell2 base_hairpin (i + 1)%Z (j - 1)%Z)
           + score_ p (Cell2 mismatch_hairpin i j)).
Proof.
  intros Hwf l rd wr p'.
  destruct (hairpin_indices i j Hwf) as (Hl & Hi1 & Hj1).
  assert (Hll : (j - i - 1)%Z = l) by (unfold l; lia).
  rewrite Hll in Hl.
  assert (Hl0 : (0 <= l < 2 ^ 64)%Z)
    by (destruct Hwf as (? & ? & ?); unfold l; lia).
  assert (Hrd : rd = [Cell1 hairpin_length (Z.min (l mod 2 ^ 32) 30);
                      Cell2 base_hairpin (i + 1)%Z (j - 1)%Z;
                      Cell2 mismatch_hairpin i j]).
  { unfold rd, score_hairpin. rewrite Hl, Hi1, Hj1.
    rewrite min_u32_clamp by lia. reflexivity. }
  assert (Hwr : wr = (if (l <=? 30)%Z then [Cell1 hairpin_length l] else [])
                     ++ [Cell2 base_hairpin (i + 1)%Z (j - 1)%Z;
                         Cell2 mismatch_hairpin i j]).
  { unfold wr, count_hairpin. rewrite Hl, Hi1, Hj1.
    destruct (l <=? 30)%Z; reflexivity. }
  split_all.
  - intros Hle. rewrite Hrd, Hwr.
    destruct (Z.leb_spec l 30) as [_|Hc]; [|lia].
    rewrite Z.mod_small by lia. rewrite Z.min_l by lia.
    split; reflexivity.
  - intros Hgt.
    assert (Hnil : on_table1 hairpin_length wr = []).
    { rewrite Hwr. destruct (Z.leb_spec l 30) as [Hc|_]; [lia|]. reflexivity. }
    split_all.
    + rewrite Hrd. reflexivity.
    + exact Hnil.
    + apply (untouched_length_table (Hairpin i j) v p hairpin_length Hnil).
  - intros Hgt Hsmall. split.
    + rewrite Hrd. rewrite Z.mod_small by lia. rewrite Z.min_r by lia.
      reflexivity.
    + unfold score_hairpin. rewrite Hl, Hi1, Hj1.
      rewrite min_u32_small by lia. rewrite Z.min_r by lia. reflexivity.
Qed.

Lemma bulge_length_accesses p v (i j k l : Z) :
  wf_single_loop i j k l ->
  let ls := Z.min ((k - 1) - (i + 1) + 1) ((j - 1) - (l + 1) + 1) in
  let ll := Z.max ((k - 1) - (i + 1) + 1) ((j - 1) - (l + 1) + 1) in
  let rd := reads (trace (score_single_loop i j k l) p) in
  let wr := writes (trace (count_single_loop i j k l v) p) in
  let p' := final (count_single_loop i j k l v) p in
  (0 < ll)%Z -> ls = 0%Z ->
  ((ll <= 30)%Z ->
   on_table1 bulge_length rd = [Cell1 bulge_length ll]
   /\ on_table1 bulge_length wr = [Cell1 bulge_length ll])
  /\ ((30 < ll)%Z ->
      on_table1 bulge_length rd
      = [Cell1 bulge_length (Z.min (ll mod 2 ^ 16) 30)]
      /\ on_table1 bulge_length wr = []
      /\ forall n, count_ p' (Cell1 bulge_length n)
                   = count_ p (Cell1 bulge_length n))
  /\ ((30 < ll)%Z -> (ll < 2 ^ 16)%Z ->
      on_table1 bulge_length rd = [Cell1 bulge_length 30]
      /\ result (score_single_loop i j k l) p
         = score_ p (Cell1 bulge_length 30)
           + (score_ p (Cell2 base_internal (i + 1)%Z (k - 1)%Z)
              + score_ p (Cell2 base_internal (l + 1)%Z (j - 1)%Z))
           + (score_ p (Cell2 mismatch_internal i j)
              + score_ p (Cell2 mismatch_internal l k))).
Proof.
  intros Hwf ls ll rd wr p' Hll Hls.
  assert (E1 : ((k - 1) - (i + 1) + 1 = k - i - 1)%Z) by lia.
  assert (E2 : ((j - 1) - (l + 1) + 1 = j - l - 1)%Z) by lia.
  pose proof (score_single_loop_bulge p i j k l Hwf) as Hs.
  pose proof (count_single_loop_bulge p v i j k l Hwf) as Hc.
  cbv zeta in Hs, Hc. rewrite <- E1, <- E2 in Hs, Hc. fold ls ll in Hs, Hc.
  specialize (Hs Hll Hls). specialize (Hc Hll Hls).
  unfold rd, wr, result, trace. rewrite Hs.
  fold (trace (count_single_loop i j k l v) p). rewrite Hc.
  cbn [fst snd reads]. rewrite min_u16_clamp by lia.
  split_all.
  - intros Hle. destruct (Z.leb_spec ll 30) as [_|Hgt]; [|lia].
    rewrite Z.mod_small by lia. rewrite Z.min_l by lia. split; reflexivity.
  - intros Hgt.
    assert (Hnil : on_table1 bulge_length wr = []).
    { unfold wr. rewrite Hc.
      destruct (Z.leb_spec ll 30) as [Hle|_]; [lia|]. reflexivity. }
    split_all.
    + reflexivity.
    + unfold wr in Hnil. rewrite Hc in Hnil. exact Hnil.
    + apply (untouched_length_table (SingleLoop i j k l) v p bulge_length Hnil).
  - intros Hgt Hsmall. rewrite Z.mod_small by lia. rewrite Z.min_r by lia.
    split; reflexivity.
Qed.

Lemma internal_length_accesses p v (i j k l : Z) :
  wf_single_loop i j k l ->
  let ls := Z.min ((k - 1) - (i + 1) + 1) ((j - 1) - (l + 1) + 1) in
  let ll := Z.max ((k - 1) - (i + 1) + 1) ((j - 1) - (l + 1) + 1) in
  let rd := reads (trace (score_single_loop i j k l) p) in
  let wr := writes (trace (count_single_loop i j k l v) p) in
  let p' := final (count_single_loop i j k l v) p in
  (0 < ls)%Z ->
  ((ls + ll <= 30)%Z ->
   on_table1 internal_length rd = [Cell1 internal_length (ls + ll)%Z]
   /\ on_table1 internal_length wr = [Cell1 internal_length (ls + ll)%Z])
  /\ ((30 < ls + ll)%Z ->
      on_table1 internal_length rd
      = [Cell1 internal_length (Z.min ((ls + ll) mod 2 ^ 32) 30)]
      /\ on_table1 internal_length wr = []
      /\ forall n, count_ p' (Cell1 internal_length n)
                   = count_ p (Cell1 internal_length n))
  /\ ((30 < ls + ll)%Z -> (ls + ll < 2 ^ 32)%Z ->
      on_table1 internal_length rd = [Cell1 internal_length 30]).
Proof.
  intros Hwf ls ll rd wr p' Hls.
  assert (E1 : ((k - 1) - (i + 1) + 1 = k - i - 1)%Z) by lia.
  assert (E2 : ((j - 1) - (l + 1) + 1 = j - l - 1)%Z) by lia.
  pose proof (score_single_loop_internal p i j k l Hwf) as Hs.
  pose proof (count_single_loop_internal p v i j k l Hwf) as Hc.
  cbv zeta in Hs, Hc. rewrite <- E1, <- E2 in Hs, Hc. fold ls ll in Hs, Hc.
  destruct (Hs Hls) as (_ & Htr). specialize (Hc Hls). clear Hs.
  assert (Hrange : (0 < ls <= ll)%Z) by (unfold ls, ll in *; lia).
  assert (Hrd : on_table1 internal_length rd
                = [Cell1 internal_length (Z.min ((ls + ll) mod 2 ^ 32) 30)]).
  { unfold rd. rewrite Htr. rewrite min_u32_clamp by lia.
    destruct (ls =? ll)%Z; reflexivity. }
  assert (Hwr : on_table1 internal_length wr
                = if (ls + ll <=? 30)%Z
                  then [Cell1 internal_length (ls + ll)%Z] else []).
  { unfold wr. rewrite Hc.
    destruct (ls + ll <=? 30)%Z; destruct (ls =? ll)%Z; reflexivity. }
  split_all.
  - intros Hle. rewrite Hrd, Hwr.
    destruct (Z.leb_spec (ls + ll) 30) as [_|Hgt]; [|lia].
    rewrite Z.mod_small by lia. rewrite Z.min_l by lia. split; reflexivity.
  - intros Hgt.
    assert (Hnil : on_table1 internal_length wr = []).
    { rewrite Hwr. destruct (Z.leb_spec (ls + ll) 30) as [Hle|_]; [lia|].
      reflexivity. }
    split_all.
    + exact Hrd.
    + exact Hnil.
    + apply (untouched_length_table (SingleLoop i j k l) v p internal_length Hnil).
  - intros Hgt Hsmall. rewrite Hrd.
    rewrite Z.mod_small by lia. rewrite Z.min_r by lia. reflexivity.
Qed.

Lemma on_table1_head (t : table1) (cs : list cell) (x : cell) (r : list cell) :
  on_table1 t cs = x :: r -> In x cs.
Proof.
  intros Heq.
  assert (Hin : In x (on_table1 t cs)) by (rewrite Heq; left; reflexivity).
  unfold on_table1 in Hin. apply filter_In in Hin. exact (proj1 Hin).
Qed.

(** The internal-loop score when the clamp of the total length is active. *)
Lemma internal_score_at_ceiling p (i j k l : Z) :
  wf_single_loop i j k l ->
  let ls := Z.min ((k - 1) - (i + 1) + 1) ((j - 1) - (l + 1) + 1) in
  let ll := Z.max ((k - 1) - (i + 1) + 1) ((j - 1) - (l + 1) + 1) in
  (0 < ls)%Z -> (30 < ls + ll)%Z -> (ls + ll < 2 ^ 32)%Z ->
  result (score_single_loop i j k l) p
  = (let e := score_ p (Cell1 internal_length 30)
              + (score_ p (Cell2 base_internal (i + 1)%Z (k - 1)%Z)
                 + score_ p (Cell2 base_internal (l + 1)%Z (j - 1)%Z))
              + score_ p (Cell2 internal_explicit (Z.min ls 4) (Z.min ll 4)) in
     let e := if (ls =? ll)%Z
              then e + score_ p (Cell1 internal_symmetry (Z.min ll 15))
              else e in
     e + score_ p (Cell1 internal_asymmetry (Z.min (ll - ls) 28))
     + (score_ p (Cell2 mismatch_internal i j)
        + score_ p (Cell2 mismatch_internal l k))).
Proof.
  intros Hwf ls ll Hls Hgt Hsmall.
  assert (E1 : ((k - 1) - (i + 1) + 1 = k - i - 1)%Z) by lia.
  assert (E2 : ((j - 1) - (l + 1) + 1 = j - l - 1)%Z) by lia.
  pose proof (score_single_loop_internal p i j k l Hwf) as Hs.
  cbv zeta in Hs. rewrite <- E1, <- E2 in Hs. fold ls ll in Hs.
  destruct (Hs Hls) as (Hres & _). clear Hs.
  assert (Hrange : (0 < ls <= ll)%Z) by (unfold ls, ll in *; lia).
  repeat rewrite min_u32_small in Hres by lia.
  rewrite (Z.min_r (ls + ll) 30) in Hres by lia.
  rewrite Hres. reflexivity.
Qed.

(** C2 (as amended): on [hairpin_length] and [internal_length], when the
    raw length is above 30 and below [2^32], and on [bulge_length] when it
    is above 30 and below [2^16], the score reads the ceiling bucket 30 and
    includes it in the returned sum (in general the hairpin and internal
    bucket is [min(l mod 2^32, 30)]); for every raw length above 30 the
    count performs no update of that length table.  When the raw length is
    at most 30 score and count use the raw length itself as the index, and
    the count adds [v] to that bucket.  Every entry outside these three
    tables is written by the count exactly when the score reads it, at the
    same index, and grows by [v]. *)
Theorem length_clamp_and_guard p v :
  (forall i j : Z,
      wf_hairpin i j ->
      let l := ((j - 1) - (i + 1) + 1)%Z in
      let rd := reads (trace (score_hairpin i j) p) in
      let wr := writes (trace (count_hairpin i j v) p) in
      let p' := final (count_hairpin i j v) p in
      ((l <= 30)%Z ->
       on_table1 hairpin_length rd = [Cell1 hairpin_length l]
       /\ on_table1 hairpin_length wr = [Cell1 hairpin_length l]
       /\ count_ p' (Cell1 hairpin_length l)
          = count_ p (Cell1 hairpin_length l) + v)
      /\ ((30 < l)%Z ->
          on_table1 hairpin_length rd
          = [Cell1 hairpin_length (Z.min (l mod 2 ^ 32) 30)]
          /\ on_table1 hairpin_length wr = []
          /\ forall n, count_ p' (Cell1 hairpin_length n)
                       = count_ p (Cell1 hairpin_length n))
      /\ ((30 < l)%Z -> (l < 2 ^ 32)%Z ->
          on_table1 hairpin_length rd = [Cell1 hairpin_length 30]
          /\ result (score_hairpin i j) p
             = szero + score_ p (Cell1 hairpin_length 30)
               + score_ p (Cell2 base_hairpin (i + 1)%Z (j - 1)%Z)
               + score_ p (Cell2 mismatch_hairpin i j)))
  /\ (forall i j k l : Z,
        wf_single_loop i j k l ->
        let ls := Z.min ((k - 1) - (i + 1) + 1) ((j - 1) - (l + 1) + 1) in
        let ll := Z.max ((k - 1) - (i + 1) + 1) ((j - 1) - (l + 1) + 1) in
        let rd := reads (trace (score_single_loop i j k l) p) in
        let wr := writes (trace (count_single_loop i j k l v) p) in
        let p' := final (count_single_loop i j k l v) p in
        (0 < ll)%Z -> ls = 0%Z ->
        ((ll <= 30)%Z ->
         on_table1 bulge_length rd = [Cell1 bulge_length ll]
         /\ on_table1 bulge_length wr = [Cell1 bulge_length ll]
         /\ count_ p' (Cell1 bulge_length ll)
            = count_ p (Cell1 bulge_length ll) + v)
        /\ ((30 < ll)%Z ->
            on_table1 bulge_length wr = []
            /\ forall n, count_ p' (Cell1 bulge_length n)
                         = count_ p (Cell1 bulge_length n))
        /\ ((30 < ll)%Z -> (ll < 2 ^ 16)%Z ->
            on_table1 bulge_length rd = [Cell1 bulge_length 30]
            /\ result (score_single_loop i j k l) p
               = score_ p (Cell1 bulge_length 30)
                 + (score_ p (Cell2 base_internal (i + 1)%Z (k - 1)%Z)
                    + score_ p (Cell2 base_internal (l + 1)%Z (j - 1)%Z))
                 + (score_ p (Cell2 mismatch_internal i j)
                    + score_ p (Cell2 mismatch_internal l k))))
  /\ (forall i j k l : Z,
        wf_single_loop i j k l ->
        let ls := Z.min ((k - 1) - (i + 1) + 1) ((j - 1) - (l + 1) + 1) in
        let ll := Z.max ((k - 1) - (i + 1) + 1) ((j - 1) - (l + 1) + 1) in
        let rd := reads (trace (score_single_loop i j k l) p) in
        let wr := writes (trace (count_single_loop i j k l v) p) in
        let p' := final (count_single_loop i j k l v) p in
        (0 < ls)%Z ->
        ((ls + ll <= 30)%Z ->
         on_table1 internal_length rd = [Cell1 internal_length (ls + ll)%Z]
         /\ on_table1 internal_length wr = [Cell1 internal_length (ls + ll)%Z]
         /\ count_ p' (Cell1 internal_length (ls + ll)%Z)
            = count_ p (Cell1 internal_length (ls + ll)%Z) + v)
        /\ ((30 < ls + ll)%Z ->
            on_table1 internal_length rd
            = [Cell1 internal_length (Z.min ((ls + ll) mod 2 ^ 32) 30)]
            /\ on_table1 internal_length wr = []
            /\ forall n, count_ p' (Cell1 internal_length n)
                         = count_ p (Cell1 internal_length n))
        /\ ((30 < ls + ll)%Z -> (ls + ll < 2 ^ 32)%Z ->
            on_table1 internal_length rd = [Cell1 internal_length 30]
            /\ result (score_single_loop i j k l) p
               = (let e := score_ p (Cell1 internal_length 30)
                           + (score_ p (Cell2 base_internal (i + 1)%Z (k - 1)%Z)
                              + score_ p (Cell2 base_internal (l + 1)%Z (j - 1)%Z))
                           + score_ p (Cell2 internal_explicit
                                         (Z.min ls 4) (Z.min ll 4)) in
                  let e := if (ls =? ll)%Z
                           then e + score_ p (Cell1 internal_symmetry (Z.min ll 15))
                           else e in
                  e + score_ p (Cell1 internal_asymmetry (Z.min (ll - ls) 28))
                  + (score_ p (Cell2 mismatch_internal i j)
                     + score_ p (Cell2 mismatch_internal l k)))))
  /\ (forall c, well_formed c ->
                forall x, in_length_table x = false ->
                          (In x (writes (trace (count_call c v) p))
                           <-> In x (reads (trace (score_call c) p)))
                          /\ (In x (reads (trace (score_call c) p)) ->
                              count_ (final (count_call c v) p) x
                              = count_ p x + v)).
Proof.
  split; [|split; [|split]].
  - intros i j Hwf l rd wr p'.
    destruct (hairpin_length_accesses p v i j Hwf) as (Ha & Hb & Hc).
    split; [|split; [exact Hb | exact Hc]].
    intros Hle. destruct (Ha Hle) as (Hrd & Hwr).
    split; [exact Hrd|]. split; [exact Hwr|].
    apply (count_call_increment (Hairpin i j) v p _ Hwf).
    exact (on_table1_head _ _ _ _ Hwr).
  - intros i j k l Hwf ls ll rd wr p' Hll Hls.
    destruct (bulge_length_accesses p v i j k l Hwf Hll Hls) as (Ha & Hb & Hc).
    split; [|split; [|exact Hc]].
    + intros Hle. destruct (Ha Hle) as (Hrd & Hwr).
      split; [exact Hrd|]. split; [exact Hwr|].
      apply (count_call_increment (SingleLoop i j k l) v p _ Hwf).
      exact (on_table1_head _ _ _ _ Hwr).
    + intros Hgt. destruct (Hb Hgt) as (_ & Hw & Hu). split; assumption.
  - intros i j k l Hwf ls ll rd wr p' Hls.
    destruct (internal_length_accesses p v i j k l Hwf Hls) as (Ha & Hb & Hc).
    split; [|split; [exact Hb|]].
    + intros Hle. destruct (Ha Hle) as (Hrd & Hwr).
      split; [exact Hrd|]. split; [exact Hwr|].
      apply (count_call_increment (SingleLoop i j k l) v p _ Hwf).
      exact (on_table1_head _ _ _ _ Hwr).
    + intros Hgt Hsmall. split; [exact (Hc Hgt Hsmall)|].
      apply (internal_score_at_ceiling p i j k l Hwf Hls Hgt Hsmall).
  - intros c Hwf x Hx.
    assert (Hiff : In x (writes (trace (count_call c v) p))
                   <-> In x (reads (trace (score_call c) p))).
    { rewrite (writes_vs_reads c v p x Hwf). split.
      + intros [Hin _]. exact Hin.
      + intros Hin. split; [exact Hin | intros _; exact Hx]. }
    split; [exact Hiff|].
    intros Hin. apply (count_call_increment c v p x Hwf).
    apply Hiff. exact Hin.
Qed.

End ClampAndGuard.

Lemma length_clamp_and_guard_witness :
  wf_hairpin 0 46 /\
  on_table1 hairpin_length (reads (trace (score_hairpin 0 46) index_tables))
  = [Cell1 hairpin_length 30] /\
  on_table1 hairpin_length (writes (trace (count_hairpin 0 46 1%Z) index_tables))
  = [].
Proof.
  assert (Hwf : wf_hairpin 0 46) by (unfold wf_hairpin; lia).
  split; [exact Hwf|].
  pose proof (length_clamp_and_guard index_tables 1%Z) as (Hh & _).
  destruct (Hh 0 46 Hwf) as (_ & Hgt & Hsm).
  split.
  - apply Hsm; reflexivity.
  - apply Hgt. reflexivity.
Defined.

(** C2 as stated fails: a raw hairpin length of [2^32] is above 30, and
    the score reads bucket [0], not the ceiling bucket. *)
Lemma length_clamp_and_guard_counterexample :
  ~ (forall (p : PositionalNearestNeighbor Z) (i j : Z),
        wf_hairpin i j ->
        (30 < (j - 1) - (i + 1) + 1)%Z ->
        In (Cell1 hairpin_length 30) (reads (trace (score_hairpin i j) p))).
Proof.
  intros Hall.
  assert (Hwf : wf_hairpin 0 4294967297) by (unfold wf_hairpin; lia).
  specialize (Hall index_tables 0 4294967297 Hwf eq_refl).
  vm_compute in Hall.
  destruct Hall as [E|[E|[E|[]]]]; discriminate E.
Qed.

(** ** Width of the clamps *)

Section ClampWidth.

Context {ScoreType : Type} `{ScoreOps ScoreType}.
Local Open Scope score_scope.

Implicit Types (p : PositionalNearestNeighbor ScoreType) (v : ScoreType).

Lemma score_hairpin_clamped p (i j : Z) :
  wf_hairpin i j ->
  let l := ((j - 1) - (i + 1) + 1)%Z in
  result (score_hairpin i j) p
  = szero + score_ p (Cell1 hairpin_length (Z.min (l mod 2 ^ 32) 30))
    + score_ p (Cell2 base_hairpin (i + 1)%Z (j - 1)%Z)
    + score_ p (Cell2 mismatch_hairpin i j).
Proof.
  intros Hwf l.
  destruct (hairpin_indices i j Hwf) as (Hl & Hi1 & Hj1).
  assert (Hll : l = (j - i - 1)%Z) by (unfold l; lia).
  unfold score_hairpin. run_monad.
  rewrite Hl, Hi1, Hj1, <- Hll.
  rewrite min_u32_clamp by lia. reflexivity.
Qed.

Lemma score_internal_clamped p (i j k l : Z) :
  wf_single_loop i j k l ->
  let ls := Z.min ((k - 1) - (i + 1) + 1) ((j - 1) - (l + 1) + 1) in
  let ll := Z.max ((k - 1) - (i + 1) + 1) ((j - 1) - (l + 1) + 1) in
  (0 < ls)%Z ->
  result (score_single_loop i j k l) p
  = (let e := score_ p (Cell1 internal_length (Z.min ((ls + ll) mod 2 ^ 32) 30))
              + (score_ p (Cell2 base_internal (i + 1)%Z (k - 1)%Z)
                 + score_ p (Cell2 base_internal (l + 1)%Z (j - 1)%Z))
              + score_ p (Cell2 internal_explicit
                            (clamp_u32 ls 4) (clamp_u32 ll 4)) in
     let e := if (ls =? ll)%Z
              then e + score_ p (Cell1 internal_symmetry (clamp_u32 ll 15))
              else e in
     e + score_ p (Cell1 internal_asymmetry (clamp_u32 (ll - ls) 28))
     + (score_ p (Cell2 mismatch_internal i j)
        + score_ p (Cell2 mismatch_internal l k))).
Proof.
  intros Hwf ls ll Hls.
  assert (E1 : ((k - 1) - (i + 1) + 1 = k - i - 1)%Z) by lia.
  assert (E2 : ((j - 1) - (l + 1) + 1 = j - l - 1)%Z) by lia.
  pose proof (score_single_loop_internal p i j k l Hwf) as Hs.
  cbv zeta in Hs. rewrite <- E1, <- E2 in Hs. fold ls ll in Hs.
  destruct (Hs Hls) as (Hres & _). clear Hs.
  repeat rewrite min_u32_clamp in Hres by lia.
  rewrite Hres. reflexivity.
Qed.

(** C10 (as amended): in the bulge branch [score_single_loop] reads, and
    includes in its sum, [bulge_length[min(ll mod 2^16, 30)]]: for
    [ll >= 2^16] with low 16 bits at most 30 it reads the bucket of the low
    bits, which is a low bucket (bucket 0 for [ll = 65536]) and not the
    ceiling bucket when the low bits are below 30, and is the ceiling bucket
    itself when they are exactly 30.  [count_single_loop] tests and uses the
    full-width [ll]: it adds [v] to [bulge_length[ll]] for [ll <= 30] and
    leaves the table as it was for [ll > 30].  The hairpin and
    internal-loop clamps read, and include in the sum, bucket
    [min(l mod 2^32, 30)]. *)
Theorem bulge_clamp_16_bits p v :
  (forall i j k l : Z,
      wf_single_loop i j k l ->
      let ls := Z.min ((k - 1) - (i + 1) + 1) ((j - 1) - (l + 1) + 1) in
      let ll := Z.max ((k - 1) - (i + 1) + 1) ((j - 1) - (l + 1) + 1) in
      let rd := reads (trace (score_single_loop i j k l) p) in
      let wr := writes (trace (count_single_loop i j k l v) p) in
      let p' := final (count_single_loop i j k l v) p in
      (0 < ll)%Z -> ls = 0%Z ->
      on_table1 bulge_length rd = [Cell1 bulge_length (Z.min (ll mod 2 ^ 16) 30)]
      /\ result (score_single_loop i j k l) p
         = score_ p (Cell1 bulge_length (Z.min (ll mod 2 ^ 16) 30))
           + (score_ p (Cell2 base_internal (i + 1)%Z (k - 1)%Z)
              + score_ p (Cell2 base_internal (l + 1)%Z (j - 1)%Z))
           + (score_ p (Cell2 mismatch_internal i j)
              + score_ p (Cell2 mismatch_internal l k))
      /\ ((2 ^ 16 <= ll)%Z -> (ll mod 2 ^ 16 <= 30)%Z ->
          on_table1 bulge_length rd = [Cell1 bulge_length (ll mod 2 ^ 16)]
          /\ ((ll mod 2 ^ 16 < 30)%Z -> ~ In (Cell1 bulge_length 30) rd)
          /\ ((ll mod 2 ^ 16 = 30)%Z -> In (Cell1 bulge_length 30) rd))
      /\ on_table1 bulge_length wr
         = (if (ll <=? 30)%Z then [Cell1 bulge_length ll] else [])
      /\ ((ll <= 30)%Z ->
          count_ p' (Cell1 bulge_length ll) = count_ p (Cell1 bulge_length ll) + v)
      /\ ((30 < ll)%Z ->
          forall n, count_ p' (Cell1 bulge_length n)
                    = count_ p (Cell1 bulge_length n)))
  /\ (on_table1 bulge_length (reads (trace (score_single_loop 0 65540 1 3) p))
      = [Cell1 bulge_length 0]
      /\ on_table1 bulge_length
           (writes (trace (count_single_loop 0 65540 1 3 v) p)) = [])
  /\ (forall i j : Z,
        wf_hairpin i j ->
        let l := ((j - 1) - (i + 1) + 1)%Z in
        on_table1 hairpin_length (reads (trace (score_hairpin i j) p))
        = [Cell1 hairpin_length (Z.min (l mod 2 ^ 32) 30)]
        /\ result (score_hairpin i j) p
           = szero + score_ p (Cell1 hairpin_length (Z.min (l mod 2 ^ 32) 30))
             + score_ p (Cell2 base_hairpin (i + 1)%Z (j - 1)%Z)
             + score_ p (Cell2 mismatch_hairpin i j))
  /\ (forall i j k l : Z,
        wf_single_loop i j k l ->
        let ls := Z.min ((k - 1) - (i + 1) + 1) ((j - 1) - (l + 1) + 1) in
        let ll := Z.max ((k - 1) - (i + 1) + 1) ((j - 1) - (l + 1) + 1) in
        (0 < ls)%Z ->
        on_table1 internal_length (reads (trace (score_single_loop i j k l) p))
        = [Cell1 internal_length (Z.min ((ls + ll) mod 2 ^ 32) 30)]
        /\ result (score_single_loop i j k l) p
           = (let e := score_ p (Cell1 internal_length
                                   (Z.min ((ls + ll) mod 2 ^ 32) 30))
                       + (score_ p (Cell2 base_internal (i + 1)%Z (k - 1)%Z)
                          + score_ p (Cell2 base_internal (l + 1)%Z (j - 1)%Z))
                       + score_ p (Cell2 internal_explicit
                                     (clamp_u32 ls 4) (clamp_u32 ll 4)) in
              let e := if (ls =? ll)%Z
                       then e + score_ p (Cell1 internal_symmetry (clamp_u32 ll 15))
                       else e in
              e + score_ p (Cell1 internal_asymmetry (clamp_u32 (ll - ls) 28))
              + (score_ p (Cell2 mismatch_internal i j)
                 + score_ p (Cell2 mismatch_internal l k)))).
Proof.
  assert (Hbulge : forall i j k l : Z,
      wf_single_loop i j k l ->
      let ls := Z.min ((k - 1) - (i + 1) + 1) ((j - 1) - (l + 1) + 1) in
      let ll := Z.max ((k - 1) - (i + 1) + 1) ((j - 1) - (l + 1) + 1) in
      let rd := reads (trace (score_single_loop i j k l) p) in
      let wr := writes (trace (count_single_loop i j k l v) p) in
      (0 < ll)%Z -> ls = 0%Z ->
      rd = [Cell1 bulge_length (Z.min (ll mod 2 ^ 16) 30);
            Cell2 base_internal (i + 1)%Z (k - 1)%Z;
            Cell2 base_internal (l + 1)%Z (j - 1)%Z;
            Cell2 mismatch_internal i j; Cell2 mismatch_internal l k]
      /\ on_table1 bulge_length wr
         = (if (ll <=? 30)%Z then [Cell1 bulge_length ll] else [])
      /\ result (score_single_loop i j k l) p
         = score_ p (Cell1 bulge_length (Z.min (ll mod 2 ^ 16) 30))
           + (score_ p (Cell2 base_internal (i + 1)%Z (k - 1)%Z)
              + score_ p (Cell2 base_internal (l + 1)%Z (j - 1)%Z))
           + (score_ p (Cell2 mismatch_internal i j)
              + score_ p (Cell2 mismatch_internal l k))).
  { intros i j k l Hwf ls ll rd wr Hll Hls.
    assert (E1 : ((k - 1) - (i + 1) + 1 = k - i - 1)%Z) by lia.
    assert (E2 : ((j - 1) - (l + 1) + 1 = j - l - 1)%Z) by lia.
    pose proof (score_single_loop_bulge p i j k l Hwf) as Hs.
    pose proof (count_single_loop_bulge p v i j k l Hwf) as Hc.
    cbv zeta in Hs, Hc. rewrite <- E1, <- E2 in Hs, Hc. fold ls ll in Hs, Hc.
    specialize (Hs Hll Hls). specialize (Hc Hll Hls).
    unfold rd, wr, result, trace. rewrite Hs.
    fold (trace (count_single_loop i j k l v) p). rewrite Hc.
    cbn [fst snd reads]. rewrite min_u16_clamp by lia.
    split; [reflexivity|]. split; [|reflexivity].
    destruct (ll <=? 30)%Z; reflexivity. }
  split; [|split; [|split]].
  - intros i j k l Hwf ls ll rd wr p' Hll Hls.
    destruct (Hbulge i j k l Hwf Hll Hls) as (Hrd & Hwr & Hres).
    fold ls ll rd wr in Hrd, Hwr, Hres.
    split; [rewrite Hrd; reflexivity|].
    split; [exact Hres|].
    split.
    { intros Hbig Hlow. rewrite Hrd. rewrite Z.min_l by exact Hlow.
      split; [reflexivity|]. split.
      - intros Hlt Hin. cbn [In] in Hin.
        destruct Hin as [E|[E|[E|[E|[E|[]]]]]]; try discriminate E.
        injection E. intros E'. lia.
      - intros H30. left. rewrite H30. reflexivity. }
    split; [exact Hwr|].
    split.
    { intros Hle.
      apply (count_call_increment (SingleLoop i j k l) v p _ Hwf).
      cbn [count_call]. fold wr.
      apply (on_table1_head bulge_length wr _ []). rewrite Hwr.
      destruct (Z.leb_spec ll 30) as [_|Hc]; [reflexivity | lia]. }
    { intros Hgt.
      apply (untouched_length_table (SingleLoop i j k l) v p bulge_length).
      cbn [count_call]. fold wr. rewrite Hwr.
      destruct (Z.leb_spec ll 30) as [Hc|_]; [lia | reflexivity]. }
  - assert (Hwf : wf_single_loop 0 65540 1 3) by (unfold wf_single_loop; lia).
    destruct (Hbulge 0 65540 1 3 Hwf) as (Hrd & Hwr & _);
      [reflexivity | reflexivity |].
    split; [rewrite Hrd; reflexivity | rewrite Hwr; reflexivity].
  - intros i j Hwf l. split; [|apply score_hairpin_clamped; exact Hwf].
    destruct (hairpin_length_accesses p v i j Hwf) as (Hle & Hgt & _).
    fold l in Hle, Hgt.
    destruct (Z_le_gt_dec l 30) as [Hl|Hl].
    + destruct (Hle Hl) as (Hrd & _). rewrite Hrd.
      assert (Hl0 : (0 <= l)%Z) by (destruct Hwf as (? & ? & ?); unfold l; lia).
      rewrite Z.mod_small by lia. rewrite Z.min_l by lia. reflexivity.
    + destruct Hgt as (Hrd & _); [lia|]. exact Hrd.
  - intros i j k l Hwf ls ll Hls.
    split; [|apply score_internal_clamped; assumption].
    destruct (internal_length_accesses p v i j k l Hwf Hls) as (Hle & Hgt & _).
    fold ls ll in Hle, Hgt.
    destruct (Z_le_gt_dec (ls + ll) 30) as [Hl|Hl].
    + destruct (Hle Hl) as (Hrd & _). rewrite Hrd.
      rewrite Z.mod_small by lia. rewrite Z.min_l by lia. reflexivity.
    + destruct Hgt as (Hrd & _); [lia|]. exact Hrd.
Qed.

End ClampWidth.

Lemma bulge_clamp_16_bits_witness :
  wf_single_loop 0 65541 1 3 /\
  on_table1 bulge_length (reads (trace (score_single_loop 0 65541 1 3) index_tables))
  = [Cell1 bulge_length 1].
Proof.
  assert (Hwf : wf_single_loop 0 65541 1 3) by (unfold wf_single_loop; lia).
  split; [exact Hwf|].
  pose proof (bulge_clamp_16_bits index_tables 1%Z) as (Hb & _).
  destruct (Hb 0 65541 1 3 Hwf) as (Hrd & _); [reflexivity | reflexivity |].
  exact Hrd.
Defined.

(** C10 as stated fails: [ll = 65566] is at least [2^16] and its low 16
    bits are exactly 30, at most 30, and the bucket read is the ceiling
    bucket [bulge_length[30]] itself. *)
Lemma bulge_clamp_16_bits_counterexample :
  ~ (forall (p : PositionalNearestNeighbor Z) (i j k l : Z),
        wf_single_loop i j k l ->
        let ls := Z.min ((k - 1) - (i + 1) + 1) ((j - 1) - (l + 1) + 1) in
        let ll := Z.max ((k - 1) - (i + 1) + 1) ((j - 1) - (l + 1) + 1) in
        ls = 0 -> 2 ^ 16 <= ll -> ll mod 2 ^ 16 <= 30 ->
        ~ In (Cell1 bulge_length 30)
            (reads (trace (score_single_loop i j k l) p))).
Proof.
  intros Hall.
  assert (Hwf : wf_single_loop 0 65570 1 3) by (unfold wf_single_loop; lia).
  apply (Hall index_tables 0 65570 1 3 Hwf).
  - reflexivity.
  - vm_compute. intros E. discriminate E.
  - vm_compute. intros E. discriminate E.
  - vm_compute. left. reflexivity.
Qed.

(** ** Additivity *)

Section Additivity.

Context {ScoreType : Type} `{ScoreOps ScoreType}.
Local Open Scope score_scope.

Implicit Types (p : PositionalNearestNeighbor ScoreType) (v : ScoreType)
  (c : loop_call).

(** Two calls with the same indices, as one replay. *)
Lemma count_twice_replay c v1 v2 p :
  count_ (final (count_call c v2) (final (count_call c v1) p))
  = add_all (writes (trace (count_call c v1) p)) v2
      (add_all (writes (trace (count_call c v1) p)) v1 (count_ p)).
Proof.
  rewrite count_call_replay.
  rewrite (count_call_trace c v2 v1 (final (count_call c v1) p) p).
  rewrite (count_call_replay c v1 p). reflexivity.
Qed.

(** C6: [count_X(args, v1)] followed by [count_X(args, v2)] leaves every
    touched entry at its former value plus [v1] plus [v2] and every other
    entry as it was.  With exact addition this is the former value plus
    [v1 + v2], the outcome is that of one call with [v1 + v2], and it does
    not depend on the order of the two calls; [count_X(args, 0)] changes no
    entry.  The score tables never change. *)
Theorem count_additive c v1 v2 p :
  let wr := writes (trace (count_call c v1) p) in
  let p12 := final (count_call c v2) (final (count_call c v1) p) in
  let p21 := final (count_call c v1) (final (count_call c v2) p) in
  (well_formed c -> forall x, In x wr -> count_ p12 x = count_ p x + v1 + v2)
  /\ (forall x, ~ In x wr -> count_ p12 x = count_ p x)
  /\ (sadd_assoc ScoreType -> well_formed c ->
      forall x, In x wr -> count_ p12 x = count_ p x + (v1 + v2))
  /\ (sadd_assoc ScoreType -> sadd_comm ScoreType ->
      (forall x, count_ p12 x = count_ (final (count_call c (v1 + v2)) p) x)
      /\ (forall x, count_ p12 x = count_ p21 x))
  /\ (sadd_right_id ScoreType ->
      forall x, count_ (final (count_call c szero) p) x = count_ p x)
  /\ score_ p12 = score_ p
  /\ score_ (final (count_call c szero) p) = score_ p.
Proof.
  intros wr p12 p21.
  assert (Hraw : well_formed c -> forall x, In x wr ->
                 count_ p12 x = count_ p x + v1 + v2).
  { intros Hwf x Hin. unfold p12. rewrite count_twice_replay. fold wr.
    assert (Hnd : NoDup wr) by (apply count_call_nodup; exact Hwf).
    rewrite add_all_once by assumption.
    rewrite add_all_once by assumption. reflexivity. }
  split_all.
  - exact Hraw.
  - intros x Hn. unfold p12. rewrite count_twice_replay. fold wr.
    rewrite !add_all_notin by exact Hn. reflexivity.
  - intros Ha Hwf x Hin. rewrite (Hraw Hwf x Hin). symmetry. apply Ha.
  - intros Ha Hc. split; intros x.
    + unfold p12. rewrite count_twice_replay.
      rewrite add_all_two by assumption. rewrite count_call_replay.
      rewrite (count_call_trace c (v1 + v2) v1 p p). reflexivity.
    + unfold p12, p21. rewrite !count_twice_replay.
      rewrite (count_call_trace c v2 v1 p p).
      rewrite !add_all_two by assumption. rewrite (Hc v2 v1). reflexivity.
  - intros H0 x. rewrite count_call_replay. apply add_all_zero. exact H0.
  - unfold p12. rewrite !count_call_score. reflexivity.
  - apply count_call_score.
Qed.

End Additivity.

Lemma Z_sadd_comm : sadd_comm Z.
Proof. intros x y. apply Z.add_comm. Defined.

Lemma Z_sadd_right_id : sadd_right_id Z.
Proof. intros x. apply Z.add_0_r. Defined.

Lemma count_additive_witness :
  sadd_assoc Z /\ sadd_comm Z /\ sadd_right_id Z /\
  well_formed (SingleLoop 0 20 8 12) /\
  count_ (final (count_call (SingleLoop 0 20 8 12) 5%Z)
            (final (count_call (SingleLoop 0 20 8 12) 2%Z) index_tables))
    (Cell1 internal_symmetry 7) = 7%Z.
Proof.
  assert (Hwf : well_formed (SingleLoop 0 20 8 12))
    by (unfold well_formed, wf_single_loop; lia).
  split; [exact Z_sadd_assoc|]. split; [exact Z_sadd_comm|].
  split; [exact Z_sadd_right_id|]. split; [exact Hwf|].
  pose proof (count_additive (SingleLoop 0 20 8 12) 2%Z 5%Z index_tables)
    as (_ & _ & Hsum & _).
  apply (Hsum Z_sadd_assoc Hwf (Cell1 internal_symmetry 7)).
  vm_compute. right; right; right; right; left; reflexivity.
Defined.

(** C6 as stated fails on machine numbers: from an entry holding 1.0,
    adding [2^53] and then 1.0 yields [2^53] (each sum rounds to even),
    while adding 1.0 and then [2^53] yields [2^53 + 2]: the outcome of two
    [count_hairpin] calls depends on their order. *)
Lemma count_additive_counterexample :
  ~ (forall (p : PositionalNearestNeighbor PrimFloat.float) (c : loop_call)
            (v1 v2 : PrimFloat.float) (x : cell),
        well_formed c ->
        count_ (final (@count_call _ FloatScores.float_ScoreOps c v2)
                  (final (@count_call _ FloatScores.float_ScoreOps c v1) p)) x
        = count_ (final (@count_call _ FloatScores.float_ScoreOps c v1)
                    (final (@count_call _ FloatScores.float_ScoreOps c v2) p)) x).
Proof.
  intros Hall.
  assert (Hwf : well_formed (Hairpin 2 10))
    by (unfold well_formed, wf_hairpin; lia).
  specialize (Hall FloatScores.float_tables (Hairpin 2 10)
                FloatScores.two53 FloatScores.one
                (Cell1 hairpin_length 7) Hwf).
  apply (f_equal (fun y => PrimFloat.eqb y FloatScores.two53)) in Hall.
  vm_compute in Hall. discriminate Hall.
Qed.

Lemma paired_roles_transposed_witness :
  Cell2 mismatch_multi 3 5 <> Cell2 mismatch_multi 9 4 /\
  count_ (final (count_multi_paired 4 9 1%Z) index_tables) (Cell2 mismatch_multi 3 5)
  = 0%Z.
Proof.
  assert (Hne : Cell2 mismatch_multi 3 5 <> Cell2 mismatch_multi 9 4)
    by (intros E; discriminate E).
  split; [exact Hne|].
  pose proof (paired_roles_transposed index_tables 1%Z 4 9)
    as (_ & _ & (_ & _ & Hfr & _) & _).
  apply (Hfr (Cell2 mismatch_multi 3 5) Hne).
Defined.

(** * Further properties of the member functions *)

(** ** Index arithmetic for arbitrary arguments *)

Lemma wrap64_range (x : Z) : 0 <= wrap64 x < 2 ^ 64.
Proof. unfold wrap64. apply Z.mod_pos_bound. reflexivity. Qed.

Lemma span_range (i j : Z) : 0 <= span i j < 2 ^ 64.
Proof. unfold span, size_add. apply wrap64_range. Qed.

Lemma size_add_range (a b : Z) : 0 <= size_add a b < 2 ^ 64.
Proof. unfold size_add. apply wrap64_range. Qed.

Lemma min_u32_bounds (a b : Z) : 0 <= b < 2 ^ 32 -> 0 <= min_u32 a b <= b.
Proof.
  intros Hb. rewrite min_u32_clamp by exact Hb.
  pose proof (Z.mod_pos_bound a (2 ^ 32) eq_refl). lia.
Qed.

Lemma min_u16_bounds (a b : Z) : 0 <= b < 2 ^ 16 -> 0 <= min_u16 a b <= b.
Proof.
  intros Hb. rewrite min_u16_clamp by exact Hb.
  pose proof (Z.mod_pos_bound a (2 ^ 16) eq_refl). lia.
Qed.

(** The three wrap-arounds of [(j-1)-(i+1)+1] amount to one. *)
Lemma span_mod (i j : Z) : span i j = (j - i - 1) mod 2 ^ 64.
Proof.
  unfold span, size_add, size_sub, wrap64.
  rewrite <- Zminus_mod. rewrite Zplus_mod_idemp_l.
  f_equal. lia.
Qed.

(** ** Every operation, on arbitrary arguments *)

(** Unfold one call into its branches, with [ls] and [ll] as minimum and
    maximum of the two spans. *)
Ltac open_call :=
  run_members; rewrite ?minmax_spec; cbv beta iota zeta.

Ltac in_bounds_cell :=
  cbn [in_bounds];
  repeat match goal with
         | |- context [min_u32 ?a ?b] =>
             lazymatch goal with
             | _ : 0 <= min_u32 a b <= b |- _ => fail
             | _ => pose proof (min_u32_bounds a b ltac:(lia))
             end
         | |- context [min_u16 ?a ?b] =>
             lazymatch goal with
             | _ : 0 <= min_u16 a b <= b |- _ => fail
             | _ => pose proof (min_u16_bounds a b ltac:(lia))
             end
         end;
  rewrite ?andb_true_iff, ?Z.leb_le; repeat split; try lia; try reflexivity.

Section AllArguments.

Context {ScoreType : Type} `{ScoreOps ScoreType}.
Local Open Scope score_scope.

Implicit Types (p : PositionalNearestNeighbor ScoreType) (v : ScoreType)
  (c : loop_call).

(** X1: whatever the arguments, every entry of a length table, of
    [internal_symmetry], of [internal_asymmetry] and of [internal_explicit]
    that a [score_*] call reads or a [count_*] call writes lies within
    0..30, 0..15, 0..28 and 0..4 x 0..4: the clamp on the score side and the
    guard on the count side keep the index in range. *)
Theorem fixed_tables_in_bounds c v p (x : cell) :
  In x (reads (trace (score_call c) p))
  \/ In x (writes (trace (count_call c v) p)) ->
  in_bounds x = true.
Proof.
  destruct c as [i j|i j k l|i j|i j|i j|i j|i j]; open_call.
  - (* hairpin *)
    pose proof (span_range i j) as Hr.
    destruct (Z.leb_spec (span i j) 30) as [Hle|Hgt]; run_monad;
      intros [Hin|Hin]; cbn [In] in Hin;
      repeat (destruct Hin as [<-|Hin]; [in_bounds_cell|]);
      contradiction.
  - (* single loop *)
    pose proof (span_range i k) as Hr1. pose proof (span_range l j) as Hr2.
    set (ls := Z.min (span i k) (span l j)).
    set (ll := Z.max (span i k) (span l j)).
    pose proof (size_add_range ls ll) as Hr3.
    assert (Hls : 0 <= ls <= ll) by (unfold ls, ll; lia).
    destruct (ll =? 0)%Z; [|destruct (ls =? 0)%Z].
    + run_monad. intros [Hin|Hin]; cbn [In] in Hin;
        repeat (destruct Hin as [<-|Hin]; [in_bounds_cell|]); contradiction.
    + destruct (Z.leb_spec ll 30) as [Hle|Hgt]; run_monad;
        intros [Hin|Hin]; cbn [In] in Hin;
        repeat (destruct Hin as [<-|Hin]; [in_bounds_cell|]); contradiction.
    + destruct (Z.leb_spec (size_add ls ll) 30) as [Hle|Hgt];
        destruct (ls =? ll)%Z; run_monad;
        intros [Hin|Hin]; cbn [In] in Hin;
        repeat (destruct Hin as [<-|Hin]; [in_bounds_cell|]); contradiction.
  - run_monad. intros [[<-|[]]|[<-|[]]]; reflexivity.
  - run_monad. intros [[<-|[]]|[<-|[]]]; reflexivity.
  - run_monad. intros [[<-|[]]|[<-|[]]]; reflexivity.
  - run_monad. intros [[<-|[]]|[<-|[]]]; reflexivity.
  - run_monad. intros [[<-|[]]|[<-|[]]]; reflexivity.
Qed.

(** Each call stays on the tables of its own group of member functions. *)
Lemma accesses_in_family c v p (x : cell) :
  In x (reads (trace (score_call c) p))
  \/ In x (writes (trace (count_call c v) p)) ->
  family_of_cell x = family_of_call c.
Proof.
  destruct c as [i j|i j k l|i j|i j|i j|i j|i j]; open_call;
    split_branches; run_monad;
    intros [Hin|Hin]; cbn [In] in Hin;
    repeat (destruct Hin as [<-|Hin]; [reflexivity|]); contradiction.
Qed.

Lemma family_tables_of_cell (x : cell) :
  family_tables (family_of_cell x) x = true.
Proof. destruct x as [t r c|t n]; destruct t; reflexivity. Qed.

Lemma family_tables_unique (f : loop_family) (x : cell) :
  family_tables f x = true -> f = family_of_cell x.
Proof.
  destruct x as [t r c|t n]; destruct t; destruct f;
    intros E; first [reflexivity | discriminate E].
Qed.

(** X2: the hairpin operations touch only [hairpin_length], [base_hairpin]
    and [mismatch_hairpin]; the single-loop operations only
    [helix_stacking], [bulge_length], [internal_length],
    [internal_explicit], [internal_symmetry], [internal_asymmetry],
    [base_internal] and [mismatch_internal]; the multi-loop operations only
    [mismatch_multi] and [base_multi]; the external operations only
    [mismatch_external] and [base_external].  No table belongs to two
    groups, hence two calls from different groups never access a common
    entry. *)
Theorem families_are_disjoint :
  (forall c v p (x : cell),
      In x (reads (trace (score_call c) p))
      \/ In x (writes (trace (count_call c v) p)) ->
      family_tables (family_of_call c) x = true)
  /\ (forall (f1 f2 : loop_family) (x : cell),
        family_tables f1 x = true -> family_tables f2 x = true -> f1 = f2)
  /\ (forall c1 c2 v1 v2 p1 p2 (x : cell),
        family_of_call c1 <> family_of_call c2 ->
        In x (reads (trace (score_call c1) p1))
        \/ In x (writes (trace (count_call c1 v1) p1)) ->
        ~ (In x (reads (trace (score_call c2) p2))
           \/ In x (writes (trace (count_call c2 v2) p2)))).
Proof.
  split; [|split].
  - intros c v p x Hin.
    rewrite <- (accesses_in_family c v p x Hin).
    apply family_tables_of_cell.
  - intros f1 f2 x H1 H2.
    rewrite (family_tables_unique f1 x H1), (family_tables_unique f2 x H2).
    reflexivity.
  - intros c1 c2 v1 v2 p1 p2 x Hne H1 H2.
    apply accesses_in_family in H1. apply accesses_in_family in H2.
    apply Hne. rewrite <- H1, <- H2. reflexivity.
Qed.

(** X3: for arbitrary arguments, ill-formed ones included, the entries
    written by [count_X(args, v)] are the entries read by [score_X(args)],
    less the entry of the length table when the raw length is above 30: the
    mirror of the two access patterns does not rest on the index
    convention. *)
Theorem mirror_for_any_arguments c v p (x : cell) :
  In x (writes (trace (count_call c v) p))
  <-> In x (reads (trace (score_call c) p))
      /\ (skips_length c = true -> in_length_table x = false).
Proof.
  destruct c as [i j|i j k l|i j|i j|i j|i j|i j];
    unfold skips_length, raw_length; open_call;
    try (run_monad; apply same_cells_no_skip).
  - pose proof (span_range i j) as Hr.
    destruct (Z.leb_spec (span i j) 30) as [Hle|Hgt];
      destruct (Z.ltb_spec 30 (span i j)) as [Hc|Hc]; try lia.
    + rewrite min_u32_small by lia. rewrite Z.min_l by lia.
      run_monad. apply same_cells_no_skip.
    + run_monad. apply same_cells_skip_head; reflexivity.
  - pose proof (span_range i k) as Hr1. pose proof (span_range l j) as Hr2.
    set (ls := Z.min (span i k) (span l j)).
    set (ll := Z.max (span i k) (span l j)).
    pose proof (size_add_range ls ll) as Hr3.
    assert (Hls : (0 <= ls <= ll)%Z) by (unfold ls, ll; lia).
    destruct (ll =? 0)%Z; [|destruct (ls =? 0)%Z].
    + run_monad. apply same_cells_no_skip.
    + destruct (Z.leb_spec ll 30) as [Hle|Hgt];
        destruct (Z.ltb_spec 30 ll) as [Hc|Hc]; try lia.
      * rewrite min_u16_small by lia. rewrite Z.min_l by lia.
        run_monad. apply same_cells_no_skip.
      * run_monad. apply same_cells_skip_head; reflexivity.
    + destruct (Z.leb_spec (size_add ls ll) 30) as [Hle|Hgt];
        destruct (Z.ltb_spec 30 (size_add ls ll)) as [Hc|Hc]; try lia.
      * rewrite (min_u32_small (size_add ls ll)) by lia.
        rewrite (Z.min_l (size_add ls ll)) by lia.
        destruct (ls =? ll)%Z; run_monad; apply same_cells_no_skip.
      * destruct (ls =? ll)%Z; run_monad;
          apply same_cells_skip_head; reflexivity.
Qed.

End AllArguments.

(** ** Accumulation across calls *)

Lemma iter_add_commute {ScoreType : Type} `{ScoreOps ScoreType}
  (n m : nat) (v w x : ScoreType) :
  sadd_assoc ScoreType -> sadd_comm ScoreType ->
  Nat.iter n (fun y => sadd y v) (Nat.iter m (fun y => sadd y w) x)
  = Nat.iter m (fun y => sadd y w) (Nat.iter n (fun y => sadd y v) x).
Proof.
  intros Ha Hc. induction m as [|m IH]; simpl; [reflexivity|].
  rewrite iter_add_swap by assumption. rewrite IH. reflexivity.
Qed.

(** Bound the occurrences of an arbitrary cell in an explicit list. *)
Ltac count_cells :=
  cbn [count_occ];
  repeat match goal with
         | |- context [cell_eq_dec ?a ?b] =>
             let E := fresh "Ec" in
             destruct (cell_eq_dec a b) as [E|E];
             [ try discriminate E; try (subst b) | ]
         end;
  try lia.

Section AcrossCalls.

Context {ScoreType : Type} `{ScoreOps ScoreType}.
Local Open Scope score_scope.

Implicit Types (p : PositionalNearestNeighbor ScoreType) (v : ScoreType)
  (c : loop_call).

Lemma count_call_occurrences c v p (x : cell) :
  (count_occ cell_eq_dec (writes (trace (count_call c v) p)) x <= 2)%nat.
Proof.
  destruct c as [i j|i j k l|i j|i j|i j|i j|i j]; open_call;
    split_branches; run_monad; count_cells.
Qed.

(** X4: a [count_*] call never overwrites: for arbitrary arguments every
    count entry ends as its former value with [v] added once per write of
    the call to that entry, which is at most twice, and at most once under
    the index convention; the score tables are left as they were. *)
Theorem count_only_adds c v p (x : cell) :
  let n := count_occ cell_eq_dec (writes (trace (count_call c v) p)) x in
  count_ (final (count_call c v) p) x
  = Nat.iter n (fun y => y + v) (count_ p x)
  /\ (n <= 2)%nat
  /\ (well_formed c -> (n <= 1)%nat)
  /\ score_ (final (count_call c v) p) = score_ p.
Proof.
  intros n. split_all.
  - rewrite count_call_replay. apply add_all_count_occ.
  - apply count_call_occurrences.
  - intros Hwf. apply (NoDup_count_occ cell_eq_dec).
    apply count_call_nodup. exact Hwf.
  - apply count_call_score.
Qed.

(** X5: with exact addition two [count_*] calls commute, whatever their
    loop kinds, arguments and weights: the count tables after
    [count_X(a, v1); count_Y(b, v2)] are those after
    [count_Y(b, v2); count_X(a, v1)]. *)
Theorem count_calls_commute c1 c2 v1 v2 p (x : cell) :
  sadd_assoc ScoreType -> sadd_comm ScoreType ->
  count_ (final (count_call c2 v2) (final (count_call c1 v1) p)) x
  = count_ (final (count_call c1 v1) (final (count_call c2 v2) p)) x.
Proof.
  intros Ha Hc.
  rewrite (count_call_replay c2 v2), (count_call_replay c1 v1 (final _ _)).
  rewrite !add_all_count_occ.
  rewrite (count_call_replay c1 v1 p), (count_call_replay c2 v2 p).
  rewrite !add_all_count_occ.
  rewrite (count_call_trace c2 v2 v2 (final (count_call c1 v1) p) p).
  rewrite (count_call_trace c1 v1 v1 (final (count_call c2 v2) p) p).
  apply iter_add_commute; assumption.
Qed.

(** X6: calls from different groups commute with no assumption on the
    addition: they write disjoint entries. *)
Theorem disjoint_calls_commute c1 c2 v1 v2 p (x : cell) :
  family_of_call c1 <> family_of_call c2 ->
  count_ (final (count_call c2 v2) (final (count_call c1 v1) p)) x
  = count_ (final (count_call c1 v1) (final (count_call c2 v2) p)) x.
Proof.
  intros Hne.
  rewrite (count_call_replay c2 v2), (count_call_replay c1 v1 (final _ _)).
  rewrite (count_call_replay c1 v1 p), (count_call_replay c2 v2 p).
  rewrite (count_call_trace c2 v2 v2 (final (count_call c1 v1) p) p).
  rewrite (count_call_trace c1 v1 v1 (final (count_call c2 v2) p) p).
  set (w1 := writes (trace (count_call c1 v1) p)).
  set (w2 := writes (trace (count_call c2 v2) p)).
  destruct (in_dec cell_eq_dec x w1) as [H1|H1].
  - assert (H2 : ~ In x w2).
    { intros H2. apply Hne.
      rewrite <- (accesses_in_family c1 v1 p x (or_intror H1)).
      rewrite <- (accesses_in_family c2 v2 p x (or_intror H2)). reflexivity. }
    rewrite (add_all_notin w2 v2 _ x H2).
    rewrite (add_all_count_occ w1 v1 (add_all w2 v2 (count_ p)) x).
    rewrite (add_all_notin w2 v2 _ x H2).
    rewrite <- add_all_count_occ. reflexivity.
  - rewrite (add_all_notin w1 v1 _ x H1).
    rewrite (add_all_count_occ w2 v2 (add_all w1 v1 (count_ p)) x).
    rewrite (add_all_notin w1 v1 _ x H1).
    rewrite <- add_all_count_occ. reflexivity.
Qed.

(** The value and the log of a [score_*] call are functions of the score
    tables alone. *)
Lemma score_call_reads_score_only c p p' :
  score_ p = score_ p' ->
  result (score_call c) p = result (score_call c) p'
  /\ trace (score_call c) p = trace (score_call c) p'.
Proof.
  intros Heq.
  destruct c as [i j|i j k l|i j|i j|i j|i j|i j]; open_call;
    split_branches; run_monad; rewrite Heq; split; reflexivity.
Qed.

(** X7: accumulation does not disturb scoring: after any [count_*] call,
    with whatever arguments and weight, every [score_*] call returns the
    value it returned before and reads the same entries, and it leaves the
    count tables as the [count_*] call made them. *)
Theorem score_unaffected_by_count c c' v p :
  let p' := final (count_call c' v) p in
  result (score_call c) p' = result (score_call c) p
  /\ trace (score_call c) p' = trace (score_call c) p
  /\ final (score_call c) p' = p'.
Proof.
  intros p'.
  destruct (score_call_reads_score_only c p' p) as (Hr & Ht).
  { apply count_call_score. }
  split_all; [exact Hr | exact Ht | apply score_call_final].
Qed.

(** X8: with exact addition every [score_*] value is the plain sum of the
    entries the call reads, in the order it reads them; when the guard of
    the length table does not skip, the matching [count_*] call writes the
    same entries in the same order, so the score is the sum of the score
    entries over the cells that the count increments. *)
Theorem score_sums_counted_cells c v p :
  sadd_assoc ScoreType -> sadd_left_id ScoreType ->
  result (score_call c) p
  = sum_cells (score_ p) (reads (trace (score_call c) p))
  /\ (skips_length c = false ->
      writes (trace (count_call c v) p) = reads (trace (score_call c) p)
      /\ result (score_call c) p
         = sum_cells (score_ p) (writes (trace (count_call c v) p))).
Proof.
  intros Ha H0.
  assert (Hsum : result (score_call c) p
                 = sum_cells (score_ p) (reads (trace (score_call c) p))).
  { destruct c as [i j|i j k l|i j|i j|i j|i j|i j]; open_call;
      split_branches; run_monad; unfold sum_cells; cbn [fold_left];
      rewrite ?H0, ?Ha; reflexivity. }
  split; [exact Hsum|].
  intros Hskip.
  assert (Hsame : writes (trace (count_call c v) p)
                  = reads (trace (score_call c) p)).
  { revert Hskip.
    destruct c as [i j|i j k l|i j|i j|i j|i j|i j];
      unfold skips_length, raw_length; open_call;
      try (intros _; run_monad; reflexivity).
    - pose proof (span_range i j) as Hr.
      destruct (Z.leb_spec (span i j) 30) as [Hle|Hgt];
        destruct (Z.ltb_spec 30 (span i j)) as [Hc|Hc]; try lia;
        intros Hskip; try discriminate Hskip.
      rewrite min_u32_small by lia. rewrite Z.min_l by lia.
      run_monad. reflexivity.
    - pose proof (span_range i k) as Hr1. pose proof (span_range l j) as Hr2.
      set (ls := Z.min (span i k) (span l j)).
      set (ll := Z.max (span i k) (span l j)).
      pose proof (size_add_range ls ll) as Hr3.
      assert (Hls : (0 <= ls <= ll)%Z) by (unfold ls, ll; lia).
      destruct (ll =? 0)%Z; [|destruct (ls =? 0)%Z].
      + intros _. run_monad. reflexivity.
      + destruct (Z.leb_spec ll 30) as [Hle|Hgt];
          destruct (Z.ltb_spec 30 ll) as [Hc|Hc]; try lia;
          intros Hskip; try discriminate Hskip.
        rewrite min_u16_small by lia. rewrite Z.min_l by lia.
        run_monad. reflexivity.
      + destruct (Z.leb_spec (size_add ls ll) 30) as [Hle|Hgt];
          destruct (Z.ltb_spec 30 (size_add ls ll)) as [Hc|Hc]; try lia;
          intros Hskip; try discriminate Hskip.
        rewrite (min_u32_small (size_add ls ll)) by lia.
        rewrite (Z.min_l (size_add ls ll)) by lia.
        destruct (ls =? ll)%Z; run_monad; reflexivity. }
  split; [exact Hsame|]. rewrite Hsame. exact Hsum.
Qed.

(** X12: with exact addition, a [count_*] call followed by the same call
    with an opposite weight ([v + w = 0]) restores every count entry,
    whatever the arguments: an accumulation can be undone. *)
Theorem count_undo c v w p (x : cell) :
  sadd_assoc ScoreType -> sadd_comm ScoreType -> sadd_right_id ScoreType ->
  v + w = szero ->
  count_ (final (count_call c w) (final (count_call c v) p)) x = count_ p x.
Proof.
  intros Ha Hc H0 Hopp.
  rewrite count_twice_replay.
  rewrite add_all_two by assumption.
  rewrite Hopp. apply add_all_zero. exact H0.
Qed.

End AcrossCalls.

(** ** Which buckets a single loop reaches *)

Ltac by_cases_in H :=
  cbn [In] in H;
  repeat (destruct H as [H|H];
          [ try discriminate H;
            try (injection H; intros; subst; split_all; try split; lia) | ]);
  try contradiction.

Section Buckets.

Context {ScoreType : Type} `{ScoreOps ScoreType}.
Local Open Scope score_scope.

Implicit Types (p : PositionalNearestNeighbor ScoreType) (v : ScoreType).

(** X9: for a well-formed internal loop whose total length fits 32 bits,
    score and count access [internal_explicit] at row [min(ls,4)] and
    column [min(ll,4)] only, so that [1 <= row <= column <= 4]: row 0,
    column 0 and the entries below the diagonal are never used.  They access
    [internal_length] at a bucket from 2 on, [internal_symmetry] only when
    [ls = ll] and then at a bucket from 1 on, and bucket 0 of
    [internal_asymmetry] exactly when [ls = ll]. *)
Theorem internal_loop_buckets p v (i j k l : Z) :
  wf_single_loop i j k l ->
  let ls := Z.min (k - i - 1) (j - l - 1) in
  let ll := Z.max (k - i - 1) (j - l - 1) in
  let rd := reads (trace (score_single_loop i j k l) p) in
  let wr := writes (trace (count_single_loop i j k l v) p) in
  (0 < ls)%Z -> (ls + ll < 2 ^ 32)%Z ->
  (forall r c, In (Cell2 internal_explicit r c) (rd ++ wr) ->
               r = Z.min ls 4 /\ c = Z.min ll 4 /\ (1 <= r <= c)%Z /\ (c <= 4)%Z)
  /\ (forall n, In (Cell1 internal_length n) (rd ++ wr) -> (2 <= n <= 30)%Z)
  /\ (forall n, In (Cell1 internal_symmetry n) (rd ++ wr) ->
                ls = ll /\ (1 <= n <= 15)%Z)
  /\ (forall n, In (Cell1 internal_asymmetry n) (rd ++ wr) ->
                n = Z.min (ll - ls) 28 /\ (n = 0%Z <-> ls = ll)).
Proof.
  intros Hwf ls ll rd wr Hls Hsmall.
  destruct (score_single_loop_internal p i j k l Hwf Hls) as (_ & Htr).
  pose proof (count_single_loop_internal p v i j k l Hwf Hls) as Hct.
  fold ls ll in Htr, Hct.
  assert (Hrange : (0 < ls <= ll)%Z) by (unfold ls, ll in *; lia).
  repeat rewrite min_u32_small in Htr by lia.
  repeat rewrite min_u32_small in Hct by lia.
  unfold rd, wr. rewrite Htr, Hct.
  destruct (Z.leb_spec (ls + ll) 30) as [Hle|Hgt];
    destruct (Z.eqb_spec ls ll) as [Heq|Hne];
    cbn [reads writes app]; split_all; intros;
    match goal with Hin : In _ _ |- _ => by_cases_in Hin end.
Qed.

(** X10: a hairpin call with [j <= i] is not rejected: the unsigned length
    wraps to [2^64 - (i - j + 1)], so that (for [i - j + 30 < 2^32])
    [score_hairpin] reads the ceiling bucket [hairpin_length[30]] and
    [count_hairpin] leaves the [hairpin_length] count table untouched. *)
Theorem hairpin_reversed_indices p v (i j : Z) :
  (0 <= j)%Z -> (j <= i)%Z -> (i < 2 ^ 64)%Z -> (i - j + 30 < 2 ^ 32)%Z ->
  span i j = (2 ^ 64 - (i - j + 1))%Z
  /\ on_table1 hairpin_length (reads (trace (score_hairpin i j) p))
     = [Cell1 hairpin_length 30]
  /\ on_table1 hairpin_length (writes (trace (count_hairpin i j v) p)) = []
  /\ (forall n, count_ (final (count_hairpin i j v) p) (Cell1 hairpin_length n)
                = count_ p (Cell1 hairpin_length n)).
Proof.
  intros Hj Hji Hi Hsmall.
  assert (Hspan : span i j = (2 ^ 64 - (i - j + 1))%Z).
  { rewrite span_mod. symmetry.
    apply (Z.mod_unique_pos _ _ (-1)); lia. }
  assert (Hmin : min_u32 (span i j) 30 = 30%Z).
  { rewrite min_u32_clamp by lia. rewrite Hspan.
    assert (Hm : ((2 ^ 64 - (i - j + 1)) mod 2 ^ 32 = 2 ^ 32 - (i - j + 1))%Z).
    { symmetry. apply (Z.mod_unique_pos _ _ (2 ^ 32 - 1)); lia. }
    rewrite Hm. lia. }
  assert (Hguard : (span i j <=? 30)%Z = false).
  { apply Z.leb_gt. rewrite Hspan. lia. }
  assert (Hnil : on_table1 hairpin_length
                   (writes (trace (count_call (Hairpin i j) v) p)) = []).
  { cbn [count_call]. unfold count_hairpin. rewrite Hguard. reflexivity. }
  split_all.
  - exact Hspan.
  - unfold score_hairpin. rewrite Hmin. reflexivity.
  - exact Hnil.
  - apply (untouched_length_table (Hairpin i j) v p hairpin_length Hnil).
Qed.

(** X11: the entries of the tables indexed by lengths ([bulge_length],
    [internal_length], [internal_explicit], [internal_symmetry],
    [internal_asymmetry]) that a well-formed single loop reads and writes
    depend on its two unpaired lengths only, and not on the side on which
    each length lies: two loops with the same lengths, on equal or on
    opposite sides, take the same branch and access the same such
    entries. *)
Theorem single_loop_side_symmetry p v (i j k l i' j' k' l' : Z) :
  wf_single_loop i j k l -> wf_single_loop i' j' k' l' ->
  ((k - i - 1 = k' - i' - 1 /\ j - l - 1 = j' - l' - 1)
   \/ (k - i - 1 = j' - l' - 1 /\ j - l - 1 = k' - i' - 1))%Z ->
  filter length_feature (reads (trace (score_single_loop i j k l) p))
  = filter length_feature (reads (trace (score_single_loop i' j' k' l') p))
  /\ filter length_feature (writes (trace (count_single_loop i j k l v) p))
     = filter length_feature (writes (trace (count_single_loop i' j' k' l' v) p))
  /\ kind_of_cells (reads (trace (score_single_loop i j k l) p))
     = kind_of_cells (reads (trace (score_single_loop i' j' k' l') p)).
Proof.
  intros Hwf Hwf' Hlen.
  assert (Hmin : Z.min (k - i - 1) (j - l - 1) = Z.min (k' - i' - 1) (j' - l' - 1))
    by lia.
  assert (Hmax : Z.max (k - i - 1) (j - l - 1) = Z.max (k' - i' - 1) (j' - l' - 1))
    by lia.
  assert (Hrange : (0 <= Z.min (k - i - 1) (j - l - 1)
                    <= Z.max (k - i - 1) (j - l - 1))%Z)
    by (destruct Hwf as (? & ? & ? & ? & ?); lia).
  destruct (Z.eq_dec (Z.max (k - i - 1) (j - l - 1)) 0) as [Hll|Hll].
  - unfold trace.
    rewrite (score_single_loop_stack p i j k l Hwf Hll).
    rewrite (score_single_loop_stack p i' j' k' l' Hwf') by lia.
    fold (trace (count_single_loop i j k l v) p).
    fold (trace (count_single_loop i' j' k' l' v) p).
    rewrite (count_single_loop_stack p v i j k l Hwf Hll).
    rewrite (count_single_loop_stack p v i' j' k' l' Hwf') by lia.
    split_all; reflexivity.
  - destruct (Z.eq_dec (Z.min (k - i - 1) (j - l - 1)) 0) as [Hls|Hls].
    + unfold trace.
      rewrite (score_single_loop_bulge p i j k l Hwf) by lia.
      rewrite (score_single_loop_bulge p i' j' k' l' Hwf') by lia.
      fold (trace (count_single_loop i j k l v) p).
      fold (trace (count_single_loop i' j' k' l' v) p).
      rewrite (count_single_loop_bulge p v i j k l Hwf) by lia.
      rewrite (count_single_loop_bulge p v i' j' k' l' Hwf') by lia.
      rewrite <- Hmax.
      destruct (Z.max (k - i - 1) (j - l - 1) <=? 30)%Z;
        split_all; reflexivity.
    + destruct (score_single_loop_internal p i j k l Hwf) as (_ & Ht); [lia|].
      destruct (score_single_loop_internal p i' j' k' l' Hwf') as (_ & Ht'); [lia|].
      rewrite Ht, Ht'.
      rewrite (count_single_loop_internal p v i j k l Hwf) by lia.
      rewrite (count_single_loop_internal p v i' j' k' l' Hwf') by lia.
      rewrite <- Hmin, <- Hmax.
      destruct (Z.min (k - i - 1) (j - l - 1)
                + Z.max (k - i - 1) (j - l - 1) <=? 30)%Z;
        destruct (Z.min (k - i - 1) (j - l - 1)
                  =? Z.max (k - i - 1) (j - l - 1))%Z;
        split_all; reflexivity.
Qed.

End Buckets.

(** ** The properties above on concrete calls *)

Lemma fixed_tables_in_bounds_witness :
  In (Cell1 hairpin_length 30)
    (reads (trace (score_call (Hairpin 0 4294967327)) index_tables))
  /\ in_bounds (Cell1 hairpin_length 30) = true.
Proof.
  assert (Hin : In (Cell1 hairpin_length 30)
                  (reads (trace (score_call (Hairpin 0 4294967327)) index_tables)))
    by (left; reflexivity).
  split; [exact Hin|].
  apply (fixed_tables_in_bounds (Hairpin 0 4294967327) 1%Z index_tables).
  left. exact Hin.
Defined.

Lemma families_are_disjoint_witness :
  family_of_call (Hairpin 2 10) <> family_of_call (SingleLoop 0 20 8 12)
  /\ ~ (In (Cell2 base_hairpin 3 9)
          (reads (trace (score_call (SingleLoop 0 20 8 12)) index_tables))
        \/ In (Cell2 base_hairpin 3 9)
             (writes (trace (count_call (SingleLoop 0 20 8 12) 1%Z) index_tables))).
Proof.
  assert (Hne : family_of_call (Hairpin 2 10)
                <> family_of_call (SingleLoop 0 20 8 12))
    by (intros E; discriminate E).
  split; [exact Hne|].
  pose proof (@families_are_disjoint Z _) as (_ & _ & Hdis).
  apply (Hdis (Hairpin 2 10) (SingleLoop 0 20 8 12)
           1%Z 1%Z index_tables index_tables (Cell2 base_hairpin 3 9) Hne).
  left. right. left. reflexivity.
Defined.

Lemma mirror_for_any_arguments_witness :
  In (Cell2 helix_stacking 0 1)
    (writes (trace (count_call (SingleLoop 0 1 1 0) 1%Z) index_tables)).
Proof.
  apply (mirror_for_any_arguments (SingleLoop 0 1 1 0) 1%Z index_tables).
  split; [left; reflexivity | intros E; discriminate E].
Defined.

Lemma count_only_adds_witness :
  well_formed (SingleLoop 2 9 3 8)
  /\ (count_occ cell_eq_dec
        (writes (trace (count_call (SingleLoop 2 9 3 8) 1%Z) index_tables))
        (Cell2 helix_stacking 2 9) <= 1)%nat.
Proof.
  assert (Hwf : well_formed (SingleLoop 2 9 3 8))
    by (unfold well_formed, wf_single_loop; lia).
  split; [exact Hwf|].
  pose proof (count_only_adds (SingleLoop 2 9 3 8) 1%Z index_tables
                (Cell2 helix_stacking 2 9)) as (_ & _ & Hone & _).
  exact (Hone Hwf).
Defined.

Lemma count_calls_commute_witness :
  sadd_assoc Z /\ sadd_comm Z /\
  count_ (final (count_call (SingleLoop 0 8 1 6) 3%Z)
            (final (count_call (SingleLoop 0 20 8 12) 2%Z) index_tables))
    (Cell2 base_internal 1 0)
  = count_ (final (count_call (SingleLoop 0 20 8 12) 2%Z)
              (final (count_call (SingleLoop 0 8 1 6) 3%Z) index_tables))
      (Cell2 base_internal 1 0).
Proof.
  split; [exact Z_sadd_assoc|]. split; [exact Z_sadd_comm|].
  apply (count_calls_commute (SingleLoop 0 20 8 12) (SingleLoop 0 8 1 6)
           2%Z 3%Z index_tables (Cell2 base_internal 1 0)
           Z_sadd_assoc Z_sadd_comm).
Defined.

Lemma disjoint_calls_commute_witness :
  family_of_call (Hairpin 2 10) <> family_of_call (MultiPaired 4 9)
  /\ count_ (final (count_call (MultiPaired 4 9) 3%Z)
               (final (count_call (Hairpin 2 10) 2%Z) index_tables))
       (Cell2 mismatch_multi 9 4)
     = count_ (final (count_call (Hairpin 2 10) 2%Z)
                 (final (count_call (MultiPaired 4 9) 3%Z) index_tables))
         (Cell2 mismatch_multi 9 4).
Proof.
  assert (Hne : family_of_call (Hairpin 2 10) <> family_of_call (MultiPaired 4 9))
    by (intros E; discriminate E).
  split; [exact Hne|].
  apply (disjoint_calls_commute (Hairpin 2 10) (MultiPaired 4 9)
           2%Z 3%Z index_tables (Cell2 mismatch_multi 9 4) Hne).
Defined.

Lemma Z_sadd_left_id : sadd_left_id Z.
Proof. intros x. reflexivity. Defined.

Lemma score_sums_counted_cells_witness :
  sadd_assoc Z /\ sadd_left_id Z /\ skips_length (SingleLoop 0 20 8 12) = false
  /\ result (score_call (SingleLoop 0 20 8 12)) index_tables
     = sum_cells index_score
         (writes (trace (count_call (SingleLoop 0 20 8 12) 1%Z) index_tables)).
Proof.
  split; [exact Z_sadd_assoc|]. split; [exact Z_sadd_left_id|].
  split; [reflexivity|].
  pose proof (score_sums_counted_cells (SingleLoop 0 20 8 12) 1%Z index_tables
                Z_sadd_assoc Z_sadd_left_id) as (_ & Hw).
  exact (proj2 (Hw eq_refl)).
Defined.

Lemma internal_loop_buckets_witness :
  wf_single_loop 0 20 8 12
  /\ (forall r c,
        In (Cell2 internal_explicit r c)
          (reads (trace (score_single_loop 0 20 8 12) index_tables)
           ++ writes (trace (count_single_loop 0 20 8 12 1%Z) index_tables)) ->
        r = 4 /\ c = 4 /\ 1 <= r <= c /\ c <= 4).
Proof.
  assert (Hwf : wf_single_loop 0 20 8 12) by (unfold wf_single_loop; lia).
  split; [exact Hwf|].
  pose proof (internal_loop_buckets index_tables 1%Z 0 20 8 12 Hwf
                eq_refl eq_refl) as (Hex & _).
  exact Hex.
Defined.

Lemma hairpin_reversed_indices_witness :
  0 <= 3 /\ 3 <= 7 /\ 7 < 2 ^ 64 /\ 7 - 3 + 30 < 2 ^ 32
  /\ on_table1 hairpin_length (reads (trace (score_hairpin 7 3) index_tables))
     = [Cell1 hairpin_length 30].
Proof.
  assert (H1 : 0 <= 3) by lia. assert (H2 : 3 <= 7) by lia.
  assert (H3 : 7 < 2 ^ 64) by lia. assert (H4 : 7 - 3 + 30 < 2 ^ 32) by lia.
  split; [exact H1|]. split; [exact H2|]. split; [exact H3|]. split; [exact H4|].
  pose proof (hairpin_reversed_indices index_tables 1%Z 7 3 H1 H2 H3 H4)
    as (_ & Hrd & _).
  exact Hrd.
Defined.

Lemma single_loop_side_symmetry_witness :
  wf_single_loop 0 8 1 6 /\ wf_single_loop 10 18 12 17
  /\ filter length_feature (reads (trace (score_single_loop 0 8 1 6) index_tables))
     = filter length_feature
         (reads (trace (score_single_loop 10 18 12 17) index_tables)).
Proof.
  assert (Hwf : wf_single_loop 0 8 1 6) by (unfold wf_single_loop; lia).
  assert (Hwf' : wf_single_loop 10 18 12 17) by (unfold wf_single_loop; lia).
  split; [exact Hwf|]. split; [exact Hwf'|].
  pose proof (single_loop_side_symmetry index_tables 1%Z 0 8 1 6 10 18 12 17
                Hwf Hwf' (or_intror (conj eq_refl eq_refl))) as (Hrd & _).
  exact Hrd.
Defined.

Lemma count_undo_witness :
  sadd_assoc Z /\ sadd_comm Z /\ sadd_right_id Z /\ (5 + -5 = 0)%Z
  /\ count_ (final (count_call (Hairpin 2 10) (-5)%Z)
               (final (count_call (Hairpin 2 10) 5%Z) index_tables))
       (Cell1 hairpin_length 7) = 0%Z.
Proof.
  split; [exact Z_sadd_assoc|]. split; [exact Z_sadd_comm|].
  split; [exact Z_sadd_right_id|]. split; [reflexivity|].
  apply (count_undo (Hairpin 2 10) 5%Z (-5)%Z index_tables
           (Cell1 hairpin_length 7)
           Z_sadd_assoc Z_sadd_comm Z_sadd_right_id eq_refl).
Defined.
